(** * gate_auth.h: the credential registry of the gate controller

  A shallow embedding of [src/gate/gate_auth.h]: the textual codec
  ([parse_stored_credentials], [credentials_to_string]), the two
  process-wide credential maps with their one-time lazy load
  ([init_default_auth]) and the CRUD and lookup entry points, followed by
  the properties of the registry that were checked against that code.

  - [std::string] is [string]; an index of type [size_t] is a [nat] and
    [std::string::npos] is [None] (every index the code computes is at
    most the length of the string, so no wrap-around can occur).
  - [std::map<std::string, std::string>] is an association list kept in
    strictly increasing key order, which is the order its iterators (and
    so [credentials_to_string]) visit.
  - The globals [stored_codes]/[stored_tags], the static maps and the
    static flag [initialized] are the fields of a state record; the reads
    and writes of the persisted globals and the log calls are recorded as
    events. *)

From Stdlib Require Import String Ascii List Arith Lia Bool Sorted.
From Stdlib Require Import OrderedTypeEx.
Import ListNotations.

Open Scope list_scope.
Open Scope string_scope.

(** ** std::string *)

Module StdString.

(** [s.find(c)]: index of the first occurrence of [c], [None] for npos. *)
Fixpoint find (c : ascii) (s : string) : option nat :=
  match s with
  | EmptyString => None
  | String a s' => if Ascii.eqb a c then Some 0 else option_map S (find c s')
  end.

(** [s.substr(pos, n)]; the code only calls it with [pos <= s.size()]. *)
Definition substr (s : string) (pos n : nat) : string :=
  String.substring pos n s.

Fixpoint drop (n : nat) (s : string) : string :=
  match n, s with
  | O, _ => s
  | S _, EmptyString => EmptyString
  | S n', String _ s' => drop n' s'
  end.

(** [s.substr(pos)]: from [pos] to the end. *)
Definition substr_from (s : string) (pos : nat) : string := drop pos s.

(** [s.erase(0, n)]: removes the first [n] characters. *)
Definition erase_front (s : string) (n : nat) : string := drop n s.

(** [s.empty()] *)
Definition empty (s : string) : bool :=
  match s with EmptyString => true | String _ _ => false end.

(** [c] does not occur in [s]. *)
Definition free_of (c : ascii) (s : string) : Prop := find c s = None.

End StdString.

(** ** std::map<std::string, std::string> *)

Module StdMap.

Definition t : Type := list (string * string).

(** [m[k] = v]: inserts at the key's place in the order, or overwrites. *)
Fixpoint set (k v : string) (m : t) : t :=
  match m with
  | [] => [(k, v)]
  | (k', v') :: rest =>
      match String.compare k k' with
      | Lt => (k, v) :: m
      | Eq => (k, v) :: rest
      | Gt => (k', v') :: set k v rest
      end
  end.

(** [m.find(k)]: the mapped value, [None] for [m.end()]. *)
Fixpoint find (k : string) (m : t) : option string :=
  match m with
  | [] => None
  | (k', v') :: rest => if String.eqb k k' then Some v' else find k rest
  end.

(** [m.erase(m.find(k))] for a key that is present. *)
Fixpoint erase (k : string) (m : t) : t :=
  match m with
  | [] => []
  | (k', v') :: rest => if String.eqb k k' then rest else (k', v') :: erase k rest
  end.

Definition size (m : t) : nat := List.length m.

Definition clear (m : t) : t := [].

Definition key_lt (a b : string) : Prop := String.compare a b = Lt.

(** The representation invariant of [std::map]: keys strictly increase. *)
Definition ordered (m : t) : Prop :=
StronglySorted (fun a b => key_lt (fst a) (fst b)) m.

End StdMap.

(** ** The codec *)

Import StdString.

(** Lines 24-29 and 33-38, the same block for a comma-terminated entry and
    for the trailing one: an entry is split at its first colon and stored; an
    entry without a colon is skipped. *)
Definition store_entry (entry : string) (target_map : StdMap.t) : StdMap.t :=
match find ":" entry with
| Some colon_pos =>
    let key := substr entry 0 colon_pos in
    let value := substr_from entry (colon_pos + 1) in
    StdMap.set key value target_map
| None => target_map
end.

(** Lines 22-31, the [while] loop: [fuel] bounds the number of iterations and
    [None] means that the bound was reached before the loop exited. The
    result is the [data] left for the trailing entry and the map. *)
Fixpoint parse_loop (fuel : nat) (data : string) (target_map : StdMap.t)
  : option (string * StdMap.t) :=
match fuel with
| O => None
| S fuel' =>
    match find "," data with
    | Some pos =>
        let entry := substr data 0 pos in
        let target_map := store_entry entry target_map in
        parse_loop fuel' (erase_front data (pos + 1)) target_map
    | None => Some (data, target_map)
    end
end.

(** Lines 17-39 with an explicit iteration bound. *)
Definition parse_stored_credentials_fuel
  (fuel : nat) (stored_data : string) (target_map : StdMap.t) : option StdMap.t :=
if empty stored_data then Some target_map
else
  match parse_loop fuel stored_data target_map with
  | Some (data, target_map) => Some (store_entry data target_map)
  | None => None
  end.

(** [parse_stored_credentials]: one more iteration than [stored_data] has
    characters is always enough ([parse_stored_credentials_fuel_enough]), so
    the second branch is never taken. *)
Definition parse_stored_credentials
  (stored_data : string) (target_map : StdMap.t) : StdMap.t :=
match parse_stored_credentials_fuel (S (String.length stored_data))
        stored_data target_map with
| Some m => m
| None => target_map
end.

(** Lines 42-51: the [for] loop over the map in key order, with its [first]
    flag and its accumulator. *)
Fixpoint credentials_to_string_loop
  (pairs : StdMap.t) (first : bool) (result : string) : string :=
match pairs with
| [] => result
| kv :: rest =>
    let result := if negb first then result ++ "," else result in
    let result := result ++ (fst kv ++ ":" ++ snd kv) in
    credentials_to_string_loop rest false result
end.

Definition credentials_to_string (creds_map : StdMap.t) : string :=
credentials_to_string_loop creds_map true "".

(** ** The registry state and its effects *)

Inductive cred_class : Type := Code | Tag.

Definition MAX_CODES : nat := 50.
Definition MAX_TAGS : nat := 50.

(** One constructor per [ESP_LOGI]/[ESP_LOGW] format string, with the
    arguments it is given. *)
Inductive log_msg : Type :=
| MsgSaved (codes tags : nat)
| MsgInitialized (codes tags : nat)
| MsgEntry (c : cred_class) (key user : string)
| MsgMaxReached (c : cred_class) (max : nat)
| MsgAdded (c : cred_class) (name : string)
| MsgRemoved (c : cred_class) (name : string)
| MsgNotFound (c : cred_class) (id : string)
| MsgCleared (c : cred_class)
| MsgAuthorized (c : cred_class) (name : string)
| MsgUnauthorized (c : cred_class) (id : string)
| MsgListHeader (c : cred_class)
| MsgTotal (c : cred_class) (n : nat).

(** What the persistence and logging collaborators observe. [EvLoad] is a
    read of [id(stored_codes)] or [id(stored_tags)], [EvStore] a write. *)
Inductive event : Type :=
| EvLoad (c : cred_class)
| EvStore (c : cred_class) (value : string)
| EvLogI (msg : log_msg)
| EvLogW (msg : log_msg).

Record registry : Type := mkRegistry {
  authorized_codes : StdMap.t;
  authorized_tags : StdMap.t;
  initialized : bool;
  stored_codes : string;
  stored_tags : string
}.

(** The state at program start: empty maps, the flag unset, and whatever the
    persistent storage holds. *)
Definition boot (codes_data tags_data : string) : registry :=
mkRegistry [] [] false codes_data tags_data.

(** A computation returns a value, the next state and the events it caused. *)
Record outcome (A : Type) : Type := mkOutcome {
  value : A;
  state : registry;
  trace : list event
}.
Arguments mkOutcome {A} _ _ _.
Arguments value {A} _.
Arguments state {A} _.
Arguments trace {A} _.

Definition M (A : Type) : Type := registry -> outcome A.

Definition ret {A : Type} (a : A) : M A := fun st => mkOutcome a st [].

Definition bind {A B : Type} (m : M A) (f : A -> M B) : M B :=
fun st =>
  let r1 := m st in
  let r2 := f (value r1) (state r1) in
  mkOutcome (value r2) (state r2) ((trace r1 ++ trace r2)%list).

Declare Scope monad_scope.
Delimit Scope monad_scope with monad.
Notation "x <- c1 ;; c2" := (bind c1 (fun x => c2))
  (at level 61, c1 at next level, right associativity) : monad_scope.
Notation "c1 ;; c2" := (bind c1 (fun _ => c2))
  (at level 61, right associativity) : monad_scope.
Open Scope monad_scope.

Definition get_codes : M StdMap.t := fun st => mkOutcome (authorized_codes st) st [].
Definition get_tags : M StdMap.t := fun st => mkOutcome (authorized_tags st) st [].
Definition get_initialized : M bool := fun st => mkOutcome (initialized st) st [].

Definition set_codes (m : StdMap.t) : M unit := fun st =>
mkOutcome tt
  (mkRegistry m (authorized_tags st) (initialized st) (stored_codes st) (stored_tags st)) [].

Definition set_tags (m : StdMap.t) : M unit := fun st =>
mkOutcome tt
  (mkRegistry (authorized_codes st) m (initialized st) (stored_codes st) (stored_tags st)) [].

Definition set_initialized (b : bool) : M unit := fun st =>
mkOutcome tt
  (mkRegistry (authorized_codes st) (authorized_tags st) b (stored_codes st) (stored_tags st)) [].

(** [id(stored_codes)] and [id(stored_tags)] read. *)
Definition read_stored (c : cred_class) : M string := fun st =>
mkOutcome (match c with Code => stored_codes st | Tag => stored_tags st end) st [EvLoad c].

(** [id(stored_codes) = v] and [id(stored_tags) = v]. *)
Definition write_stored (c : cred_class) (v : string) : M unit := fun st =>
mkOutcome tt
  (match c with
   | Code => mkRegistry (authorized_codes st) (authorized_tags st) (initialized st)
               v (stored_tags st)
   | Tag => mkRegistry (authorized_codes st) (authorized_tags st) (initialized st)
              (stored_codes st) v
   end)
  [EvStore c v].

Definition log_i (msg : log_msg) : M unit := fun st => mkOutcome tt st [EvLogI msg].
Definition log_w (msg : log_msg) : M unit := fun st => mkOutcome tt st [EvLogW msg].

(** [for (const auto& pair : m) ESP_LOGI(...)] *)
Fixpoint log_each (c : cred_class) (m : StdMap.t) : M unit :=
match m with
| [] => ret tt
| kv :: rest => log_i (MsgEntry c (fst kv) (snd kv)) ;; log_each c rest
end.

(** ** The registry operations *)

(** Lines 54-63. *)
Definition save_credentials : M unit :=
codes <- get_codes ;;
tags <- get_tags ;;
let codes_str := credentials_to_string codes in
let tags_str := credentials_to_string tags in
write_stored Code codes_str ;;
write_stored Tag tags_str ;;
log_i (MsgSaved (StdMap.size codes) (StdMap.size tags)).

(** Lines 66-86. *)
Definition init_default_auth : M unit :=
is_init <- get_initialized ;;
if negb is_init then
  codes_data <- read_stored Code ;;
  tags_data <- read_stored Tag ;;
  codes <- get_codes ;;
  set_codes (parse_stored_credentials codes_data codes) ;;
  tags <- get_tags ;;
  set_tags (parse_stored_credentials tags_data tags) ;;
  set_initialized true ;;
  codes <- get_codes ;;
  tags <- get_tags ;;
  log_i (MsgInitialized (StdMap.size codes) (StdMap.size tags)) ;;
  log_each Code codes ;;
  log_each Tag tags
else ret tt.

(** Lines 89-100. *)
Definition add_authorized_code (code name : string) : M unit :=
init_default_auth ;;
codes <- get_codes ;;
if (MAX_CODES <=? StdMap.size codes)%nat then
  log_w (MsgMaxReached Code MAX_CODES)
else
  set_codes (StdMap.set code name codes) ;;
  save_credentials ;;
  log_i (MsgAdded Code name).

(** Lines 103-114. *)
Definition add_authorized_tag (tag name : string) : M unit :=
init_default_auth ;;
tags <- get_tags ;;
if (MAX_TAGS <=? StdMap.size tags)%nat then
  log_w (MsgMaxReached Tag MAX_TAGS)
else
  set_tags (StdMap.set tag name tags) ;;
  save_credentials ;;
  log_i (MsgAdded Tag name).

(** Lines 117-128. *)
Definition remove_authorized_code (code : string) : M unit :=
init_default_auth ;;
codes <- get_codes ;;
match StdMap.find code codes with
| Some name =>
    log_i (MsgRemoved Code name) ;;
    set_codes (StdMap.erase code codes) ;;
    save_credentials
| None => log_w (MsgNotFound Code code)
end.

(** Lines 131-142. *)
Definition remove_authorized_tag (tag : string) : M unit :=
init_default_auth ;;
tags <- get_tags ;;
match StdMap.find tag tags with
| Some name =>
    log_i (MsgRemoved Tag name) ;;
    set_tags (StdMap.erase tag tags) ;;
    save_credentials
| None => log_w (MsgNotFound Tag tag)
end.

(** Lines 145-149. *)
Definition clear_all_codes : M unit :=
codes <- get_codes ;;
set_codes (StdMap.clear codes) ;;
save_credentials ;;
log_i (MsgCleared Code).

(** Lines 152-156. *)
Definition clear_all_tags : M unit :=
tags <- get_tags ;;
set_tags (StdMap.clear tags) ;;
save_credentials ;;
log_i (MsgCleared Tag).

(** Lines 159-172. *)
Definition check_authorized_code (code : string) : M bool :=
init_default_auth ;;
codes <- get_codes ;;
match StdMap.find code codes with
| Some name => log_i (MsgAuthorized Code name) ;; ret true
| None => log_w (MsgUnauthorized Code code) ;; ret false
end.

(** Lines 175-188. *)
Definition check_authorized_tag (tag : string) : M bool :=
init_default_auth ;;
tags <- get_tags ;;
match StdMap.find tag tags with
| Some name => log_i (MsgAuthorized Tag name) ;; ret true
| None => log_w (MsgUnauthorized Tag tag) ;; ret false
end.

(** Lines 191-199. *)
Definition get_code_user_name (code : string) : M string :=
init_default_auth ;;
codes <- get_codes ;;
match StdMap.find code codes with
| Some name => ret name
| None => ret "Unknown"
end.

(** Lines 202-210. *)
Definition get_tag_user_name (tag : string) : M string :=
init_default_auth ;;
tags <- get_tags ;;
match StdMap.find tag tags with
| Some name => ret name
| None => ret "Unknown"
end.

(** Lines 213-221. *)
Definition list_authorized_codes : M unit :=
init_default_auth ;;
log_i (MsgListHeader Code) ;;
codes <- get_codes ;;
log_each Code codes ;;
log_i (MsgTotal Code (StdMap.size codes)).

(** Lines 224-232. *)
Definition list_authorized_tags : M unit :=
init_default_auth ;;
log_i (MsgListHeader Tag) ;;
tags <- get_tags ;;
log_each Tag tags ;;
log_i (MsgTotal Tag (StdMap.size tags)).

(** ** Sequences of calls *)

(** A call of one of the entry points of the header. *)
Inductive op : Type :=
| AddCode (code name : string)
| AddTag (tag name : string)
| RemoveCode (code : string)
| RemoveTag (tag : string)
| ClearCodes
| ClearTags
| CheckCode (code : string)
| CheckTag (tag : string)
| CodeUserName (code : string)
| TagUserName (tag : string)
| ListCodes
| ListTags.

Definition run_op (o : op) : M unit :=
match o with
| AddCode code name => add_authorized_code code name
| AddTag tag name => add_authorized_tag tag name
| RemoveCode code => remove_authorized_code code
| RemoveTag tag => remove_authorized_tag tag
| ClearCodes => clear_all_codes
| ClearTags => clear_all_tags
| CheckCode code => check_authorized_code code ;; ret tt
| CheckTag tag => check_authorized_tag tag ;; ret tt
| CodeUserName code => get_code_user_name code ;; ret tt
| TagUserName tag => get_tag_user_name tag ;; ret tt
| ListCodes => list_authorized_codes
| ListTags => list_authorized_tags
end.

Fixpoint run_ops (os : list op) : M unit :=
match os with
| [] => ret tt
| o :: rest => run_op o ;; run_ops rest
end.

(** The class an entry point works on. *)
Definition op_class (o : op) : cred_class :=
match o with
| AddCode _ _ | RemoveCode _ | ClearCodes | CheckCode _ | CodeUserName _ | ListCodes => Code
| AddTag _ _ | RemoveTag _ | ClearTags | CheckTag _ | TagUserName _ | ListTags => Tag
end.

Definition is_clear (o : op) : bool :=
match o with ClearCodes | ClearTags => true | _ => false end.

(** Observations on a trace. *)
Definition is_load (c : cred_class) (e : event) : bool :=
match e, c with
| EvLoad Code, Code | EvLoad Tag, Tag => true
| _, _ => false
end.

Definition loads (c : cred_class) (tr : list event) : nat :=
List.length (filter (is_load c) tr).

(** The writes to the persisted globals, in order. *)
Fixpoint stores (tr : list event) : list (cred_class * string) :=
match tr with
| [] => []
| EvStore c v :: rest => (c, v) :: stores rest
| _ :: rest => stores rest
end.

Fixpoint warnings (tr : list event) : list log_msg :=
match tr with
| [] => []
| EvLogW msg :: rest => msg :: warnings rest
| _ :: rest => warnings rest
end.

(** ** Notions used in the statements *)

(** An entry the textual format can carry: no comma in the id or the name,
    no colon in the id. *)
Definition well_formed_entry (kv : string * string) : Prop :=
free_of "," (fst kv) /\ free_of ":" (fst kv) /\ free_of "," (snd kv).

(** Both maps satisfy the representation invariant of [std::map]. *)
Definition registry_ok (st : registry) : Prop :=
StdMap.ordered (authorized_codes st) /\ StdMap.ordered (authorized_tags st).

(** Whether a call made in state [st] (lazy initialisation done) reaches
    [save_credentials]: the guards of lines 92, 106, 121 and 135. *)
Definition persists (o : op) (st : registry) : bool :=
match o with
| AddCode _ _ => negb (MAX_CODES <=? StdMap.size (authorized_codes st))%nat
| AddTag _ _ => negb (MAX_TAGS <=? StdMap.size (authorized_tags st))%nat
| RemoveCode code =>
    match StdMap.find code (authorized_codes st) with Some _ => true | None => false end
| RemoveTag tag =>
    match StdMap.find tag (authorized_tags st) with Some _ => true | None => false end
| ClearCodes | ClearTags => true
| _ => false
end.

(** The state in which the body of an entry point runs: every entry point
    but the two clear functions starts with [init_default_auth]. *)
Definition entry_state (o : op) (st : registry) : registry :=
if is_clear o then st else state (init_default_auth st).

(** The size bounds [bc] and [bt] hold, and a registry that has not loaded
    yet has empty maps and persisted strings that decode within the bounds. *)
Definition sizes_within (bc bt : nat) (st : registry) : Prop :=
StdMap.size (authorized_codes st) <= bc
/\ StdMap.size (authorized_tags st) <= bt
/\ (initialized st = false ->
    authorized_codes st = [] /\ authorized_tags st = []
    /\ StdMap.size (parse_stored_credentials (stored_codes st) []) <= bc
    /\ StdMap.size (parse_stored_credentials (stored_tags st) []) <= bt).

(** The two writes of one [save_credentials] call made in state [st]. *)
Definition saved (st : registry) : list (cred_class * string) :=
[(Code, credentials_to_string (authorized_codes st));
 (Tag, credentials_to_string (authorized_tags st))].

(** A map of [n] one-letter ids ["A"], ["B"], ... all of user ["user"]. *)
Definition lettered (n : nat) : StdMap.t :=
map (fun i => (String (ascii_of_nat (65 + i)) EmptyString, "user")) (seq 0 n).

(** An initialised registry whose codes are [codes]. *)
Definition loaded (codes tags : StdMap.t) : registry :=
mkRegistry codes tags true (credentials_to_string codes) (credentials_to_string tags).

(** The lookups and the listings (lines 159-232). *)
Definition is_query (o : op) : bool :=
match o with
| CheckCode _ | CheckTag _ | CodeUserName _ | TagUserName _
| ListCodes | ListTags => true
| _ => false
end.

(** The persisted strings are the encodings of the two maps. *)
Definition in_sync (st : registry) : Prop :=
stored_codes st = credentials_to_string (authorized_codes st)
/\ stored_tags st = credentials_to_string (authorized_tags st).

(** The state at the next program start: the static maps and the flag are
    fresh, the persisted strings are what the last run left. *)
Definition reboot (st : registry) : registry :=
boot (stored_codes st) (stored_tags st).

(** The log lines of one listing of the map [m] of class [c]
    (lines 216-220 and 227-231). *)
Definition listing (c : cred_class) (m : StdMap.t) : list event :=
(EvLogI (MsgListHeader c)
 :: map (fun kv => EvLogI (MsgEntry c (fst kv) (snd kv))) m
 ++ [EvLogI (MsgTotal c (StdMap.size m))])%list.

(** ** Facts about the string operations *)

Section StringFacts.

Lemma option_map_S_none (o : option nat) : option_map S o = None <-> o = None.
Proof. destruct o; simpl; split; congruence. Qed.

Lemma append_empty_r (s : string) : s ++ "" = s.
Proof. induction s as [|a s IH]; simpl; [reflexivity | now rewrite IH]. Qed.

Lemma append_assoc (a b c : string) : (a ++ b) ++ c = a ++ (b ++ c).
Proof. induction a as [|x a IH]; simpl; [reflexivity | now rewrite IH]. Qed.

Lemma length_append (a b : string) :
  String.length (a ++ b) = String.length a + String.length b.
Proof. induction a as [|x a IH]; simpl; [reflexivity | now rewrite IH]. Qed.

Lemma find_lt (c : ascii) (s : string) (pos : nat) :
  find c s = Some pos -> pos < String.length s.
Proof.
  revert pos; induction s as [|a s IH]; simpl; intros pos H; [discriminate|].
  destruct (Ascii.eqb a c).
  - inversion H; lia.
  - destruct (find c s) as [p|]; simpl in H; [|discriminate].
    inversion H; subst. specialize (IH p eq_refl). lia.
Qed.

Lemma length_drop (n : nat) (s : string) :
  String.length (drop n s) = String.length s - n.
Proof.
  revert s; induction n as [|n IH]; intros [|a s]; simpl; auto.
Qed.

(** Searching [c] in [e ++ c :: rest] where [e] is free of [c]. *)
Lemma find_append_sep (c : ascii) (e rest : string) :
  free_of c e -> find c (e ++ String c rest) = Some (String.length e).
Proof.
  unfold free_of. induction e as [|a e IH]; simpl; intros H.
  - now rewrite Ascii.eqb_refl.
  - destruct (Ascii.eqb a c); [discriminate|].
    destruct (find c e); [discriminate|]. now rewrite IH.
Qed.

Lemma substr_prefix (e rest : string) :
  substr (e ++ rest) 0 (String.length e) = e.
Proof.
  unfold substr. induction e as [|a e IH]; simpl.
  - destruct rest; reflexivity.
  - now rewrite IH.
Qed.

Lemma drop_append (e rest : string) :
  drop (String.length e) (e ++ rest) = rest.
Proof. induction e as [|a e IH]; simpl; auto. Qed.

Lemma free_of_append (c : ascii) (a b : string) :
  free_of c (a ++ b) <-> free_of c a /\ free_of c b.
Proof.
  unfold free_of. induction a as [|x a IH]; simpl.
  - tauto.
  - destruct (Ascii.eqb x c).
    + split; [discriminate | intros [H _]; discriminate].
    + rewrite !option_map_S_none. exact IH.
Qed.

End StringFacts.

(** ** Facts about the ordered map *)

Section MapFacts.
Import StdMap.

Lemma key_lt_trans (a b c : string) : key_lt a b -> key_lt b c -> key_lt a c.
Proof.
  unfold key_lt. intros Hab Hbc.
  apply String_as_OT.cmp_lt in Hab. apply String_as_OT.cmp_lt in Hbc.
  apply String_as_OT.cmp_lt. eapply String_as_OT.lt_trans; eassumption.
Qed.

Lemma compare_gt_lt (a b : string) : String.compare a b = Gt -> key_lt b a.
Proof.
  unfold key_lt. intros H. rewrite String.compare_antisym, H. reflexivity.
Qed.

Lemma compare_eqb (a b : string) :
  String.eqb a b = match String.compare a b with Eq => true | _ => false end.
Proof.
  destruct (String.compare a b) eqn:E.
  - apply String.compare_eq_iff in E. subst. apply String.eqb_refl.
  - apply String.eqb_neq. intros ->.
    assert (String.compare b b = Eq) by now apply String_as_OT.cmp_eq.
    congruence.
  - apply String.eqb_neq. intros ->.
    assert (String.compare b b = Eq) by now apply String_as_OT.cmp_eq.
    congruence.
Qed.

Lemma key_lt_neq (a b : string) : key_lt a b -> String.eqb a b = false.
Proof. unfold key_lt. intros H. now rewrite compare_eqb, H. Qed.

Lemma key_lt_neq_sym (a b : string) : key_lt a b -> String.eqb b a = false.
Proof. intros H. rewrite String.eqb_sym. now apply key_lt_neq. Qed.

Lemma size_set_le (k v : string) (m : t) : size (set k v m) <= S (size m).
Proof.
  unfold size. induction m as [|[k' v'] rest IH]; simpl; [lia|].
  destruct (String.compare k k'); simpl; lia.
Qed.

Lemma size_erase_le (k : string) (m : t) : size (erase k m) <= size m.
Proof.
  unfold size. induction m as [|[k' v'] rest IH]; simpl; [lia|].
  destruct (String.eqb k k'); simpl; lia.
Qed.

Lemma size_erase_found (k name : string) (m : t) :
  find k m = Some name -> S (size (erase k m)) = size m.
Proof.
  unfold size. induction m as [|[k' v'] rest IH]; simpl; [discriminate|].
  destruct (String.eqb k k'); simpl; auto.
Qed.

Lemma find_set_same (k v : string) (m : t) : find k (set k v m) = Some v.
Proof.
  induction m as [|[k' v'] rest IH]; simpl.
  - now rewrite String.eqb_refl.
  - destruct (String.compare k k') eqn:E; simpl.
    + now rewrite String.eqb_refl.
    + now rewrite String.eqb_refl.
    + now rewrite compare_eqb, E.
Qed.

Lemma find_set_other (k k0 v : string) (m : t) :
  k0 <> k -> find k0 (set k v m) = find k0 m.
Proof.
  intros Hne. apply String.eqb_neq in Hne.
  induction m as [|[k' v'] rest IH]; simpl.
  - now rewrite Hne.
  - destruct (String.compare k k') eqn:E; simpl.
    + apply String.compare_eq_iff in E. subst k'. now rewrite Hne.
    + now rewrite Hne.
    + now rewrite IH.
Qed.

Lemma Forall_lt_set (a k v : string) (m : t) :
  key_lt a k ->
  Forall (fun kv => key_lt a (fst kv)) m ->
  Forall (fun kv => key_lt a (fst kv)) (set k v m).
Proof.
  intros Hak. induction m as [|[k' v'] rest IH]; simpl; intros H.
  - constructor; auto.
  - inversion H as [|x l Hx Hl]; subst.
    destruct (String.compare k k'); constructor; auto.
Qed.

Lemma ordered_set (k v : string) (m : t) : ordered m -> ordered (set k v m).
Proof.
  unfold ordered. induction m as [|[k' v'] rest IH]; simpl; intros H.
  - repeat constructor.
  - apply StronglySorted_inv in H as [Hs Hf].
    destruct (String.compare k k') eqn:E.
    + apply String.compare_eq_iff in E. subst k'. constructor; auto.
    + constructor; [constructor; auto|].
      constructor; [exact E|].
      eapply Forall_impl; [|exact Hf]. simpl. intros kv Hkv.
      eapply key_lt_trans; [exact E | exact Hkv].
    + constructor; [auto|].
      apply Forall_lt_set; [now apply compare_gt_lt | exact Hf].
Qed.

Lemma Forall_erase (P : string * string -> Prop) (k : string) (m : t) :
  Forall P m -> Forall P (erase k m).
Proof.
  induction m as [|[k' v'] rest IH]; simpl; intros H; [constructor|].
  inversion H; subst. destruct (String.eqb k k'); auto.
Qed.

Lemma ordered_erase (k : string) (m : t) : ordered m -> ordered (erase k m).
Proof.
  unfold ordered. induction m as [|[k' v'] rest IH]; simpl; intros H.
  - constructor.
  - apply StronglySorted_inv in H as [Hs Hf].
    destruct (String.eqb k k'); [exact Hs|].
    constructor; [auto | now apply Forall_erase].
Qed.

Lemma find_above (k : string) (m : t) :
  Forall (fun kv => key_lt k (fst kv)) m -> find k m = None.
Proof.
  induction m as [|[k' v'] rest IH]; simpl; intros H; [reflexivity|].
  inversion H; subst. simpl in *. rewrite key_lt_neq by assumption. auto.
Qed.

Lemma find_erase_same (k : string) (m : t) :
  ordered m -> find k (erase k m) = None.
Proof.
  unfold ordered. induction m as [|[k' v'] rest IH]; simpl; intros H.
  - reflexivity.
  - apply StronglySorted_inv in H as [Hs Hf].
    destruct (String.eqb k k') eqn:E.
    + apply String.eqb_eq in E. subst k'. now apply find_above.
    + simpl. rewrite E. auto.
Qed.

Lemma find_erase_other (k k0 : string) (m : t) :
  k0 <> k -> find k0 (erase k m) = find k0 m.
Proof.
  intros Hne. induction m as [|[k' v'] rest IH]; simpl; [reflexivity|].
  destruct (String.eqb k k') eqn:E.
  - apply String.eqb_eq in E. subst k'.
    apply String.eqb_neq in Hne. now rewrite Hne.
  - simpl. now rewrite IH.
Qed.

(** Storing a key above all the keys of the map appends the entry. *)
Lemma set_above (k v : string) (m : t) :
  Forall (fun kv => key_lt (fst kv) k) m -> set k v m = (m ++ [(k, v)])%list.
Proof.
  induction m as [|[k' v'] rest IH]; simpl; intros H; [reflexivity|].
  inversion H as [|x l Hx Hl]; subst. simpl in Hx.
  unfold key_lt in Hx. rewrite String.compare_antisym, Hx. simpl.
  now rewrite IH.
Qed.

Lemma ordered_app_below (m1 m2 : t) (k v : string) :
  ordered (m1 ++ (k, v) :: m2)%list ->
  Forall (fun kv => key_lt (fst kv) k) m1.
Proof.
  unfold ordered. induction m1 as [|[k' v'] rest IH]; simpl; intros H.
  - constructor.
  - apply StronglySorted_inv in H as [Hs Hf]. constructor.
    + rewrite Forall_forall in Hf. apply (Hf (k, v)).
      apply in_or_app. right. now left.
    + auto.
Qed.

(** Storing the entries of an ordered map one after the other, in order,
    rebuilds it. *)
Lemma fold_set_ordered (m2 m1 : t) :
  ordered (m1 ++ m2)%list ->
  fold_left (fun acc kv => set (fst kv) (snd kv) acc) m2 m1 = (m1 ++ m2)%list.
Proof.
  revert m1. induction m2 as [|[k v] rest IH]; simpl; intros m1 H.
  - now rewrite app_nil_r.
  - rewrite set_above by (eapply ordered_app_below; exact H).
    rewrite IH; rewrite <- app_assoc; simpl; auto.
Qed.

End MapFacts.

(** ** Facts about the codec *)

Section CodecFacts.

Lemma drop_past_sep (c : ascii) (e rest : string) :
  drop (String.length e + 1) (e ++ String c rest) = rest.
Proof.
  induction e as [|a e IH]; simpl; [reflexivity | exact IH].
Qed.

(** A successful search cuts the string into the part before the character,
    which is free of it, and the part after it. *)
Lemma find_split (c : ascii) (data : string) (pos : nat) :
  find c data = Some pos ->
  data = substr data 0 pos ++ String c (drop (pos + 1) data)
  /\ free_of c (substr data 0 pos)
  /\ String.length (substr data 0 pos) = pos.
Proof.
  unfold free_of, substr. revert pos.
  induction data as [|a s IH]; simpl; intros pos H; [discriminate|].
  destruct (Ascii.eqb a c) eqn:E.
  - inversion H; subst. apply Ascii.eqb_eq in E. subst. simpl. auto.
  - destruct (find c s) as [p|] eqn:F; simpl in H; [|discriminate].
    inversion H; subst. destruct (IH p eq_refl) as (H1 & H2 & H3).
    simpl. rewrite E, H2, H3. simpl. rewrite <- H1. auto.
Qed.

Lemma store_entry_no_colon (e : string) (m : StdMap.t) :
  free_of ":" e -> store_entry e m = m.
Proof. unfold store_entry, free_of. now intros ->. Qed.

Lemma store_entry_split (k v : string) (m : StdMap.t) :
  free_of ":" k -> store_entry (k ++ ":" ++ v) m = StdMap.set k v m.
Proof.
  intros Hk. unfold store_entry. simpl.
  rewrite (find_append_sep _ _ _ Hk).
  unfold substr_from. now rewrite substr_prefix, drop_past_sep.
Qed.

(** An entry that contains a colon is stored under the text before its
    first colon. *)
Lemma store_entry_colon (e : string) (m : StdMap.t) (colon_pos : nat) :
  find ":" e = Some colon_pos ->
  exists k v, e = k ++ ":" ++ v /\ free_of ":" k
              /\ store_entry e m = StdMap.set k v m.
Proof.
  intros H. destruct (find_split _ _ _ H) as (H1 & H2 & _).
  exists (substr e 0 colon_pos), (drop (colon_pos + 1) e).
  split; [exact H1|]. split; [exact H2|].
  unfold store_entry. now rewrite H.
Qed.

Lemma parse_loop_step (fuel : nat) (e rest : string) (m : StdMap.t) :
  free_of "," e ->
  parse_loop (S fuel) (e ++ "," ++ rest) m = parse_loop fuel rest (store_entry e m).
Proof.
  intros He. simpl. rewrite (find_append_sep _ _ _ He).
  unfold erase_front. now rewrite substr_prefix, drop_past_sep.
Qed.

Lemma parse_loop_exit (fuel : nat) (e : string) (m : StdMap.t) :
  free_of "," e -> parse_loop (S fuel) e m = Some (e, m).
Proof. unfold free_of. intros He. simpl. now rewrite He. Qed.

(** One iteration of the loop makes [data] strictly shorter. *)
Lemma erase_front_shorter (data : string) (pos : nat) :
  find "," data = Some pos ->
  String.length (erase_front data (pos + 1)) < String.length data.
Proof.
  intros H. apply find_lt in H. unfold erase_front. rewrite length_drop. lia.
Qed.

(** The loop exits within [String.length data + 1] iterations. *)
Lemma parse_loop_enough (fuel : nat) :
  forall (data : string) (m : StdMap.t),
    String.length data < fuel -> exists r, parse_loop fuel data m = Some r.
Proof.
  induction fuel as [|fuel IH]; intros data m Hlen; [lia|].
  simpl. destruct (find "," data) as [pos|] eqn:F.
  - apply IH. apply erase_front_shorter in F. lia.
  - eauto.
Qed.

Lemma parse_loop_mono (fuel : nat) :
  forall (fuel' : nat) (data : string) (m : StdMap.t) r,
    parse_loop fuel data m = Some r -> fuel <= fuel' ->
    parse_loop fuel' data m = Some r.
Proof.
  induction fuel as [|fuel IH]; intros fuel' data m r H Hle; [discriminate|].
  destruct fuel' as [|fuel']; [lia|].
  simpl in *. destruct (find "," data) as [pos|]; [|exact H].
  eapply IH; [exact H | lia].
Qed.

Lemma parse_loop_fuel_irrelevant (fuel : nat) (data : string) (m : StdMap.t) :
  String.length data < fuel ->
  parse_loop fuel data m = parse_loop (S (String.length data)) data m.
Proof.
  intros Hlen.
  destruct (parse_loop_enough (S (String.length data)) data m) as [r Hr]; [lia|].
  rewrite Hr. eapply parse_loop_mono; [exact Hr | lia].
Qed.

(** The early return on the empty string agrees with the general path. *)
Lemma parse_unfold (data : string) (m : StdMap.t) :
  parse_stored_credentials data m =
  match parse_loop (S (String.length data)) data m with
  | Some (d, m') => store_entry d m'
  | None => m
  end.
Proof.
  unfold parse_stored_credentials, parse_stored_credentials_fuel.
  destruct data as [|a s]; [reflexivity|].
  cbv beta iota delta [empty].
  destruct (parse_loop _ _ _) as [[d m']|]; reflexivity.
Qed.

Lemma parse_stored_credentials_fuel_enough (fuel : nat) (data : string) (m : StdMap.t) :
  String.length data < fuel ->
  parse_stored_credentials_fuel fuel data m = Some (parse_stored_credentials data m).
Proof.
  intros Hlen. unfold parse_stored_credentials, parse_stored_credentials_fuel.
  destruct (empty data); [reflexivity|].
  rewrite (parse_loop_fuel_irrelevant fuel) by exact Hlen.
  destruct (parse_loop_enough (S (String.length data)) data m) as [[d m'] Hr]; [lia|].
  now rewrite Hr.
Qed.

(** Decoding consumes a comma-terminated entry and goes on with the rest. *)
Lemma parse_cons_entry (e rest : string) (m : StdMap.t) :
  free_of "," e ->
  parse_stored_credentials (e ++ "," ++ rest) m =
  parse_stored_credentials rest (store_entry e m).
Proof.
  intros He. rewrite !parse_unfold.
  rewrite parse_loop_step by exact He.
  rewrite parse_loop_fuel_irrelevant by (rewrite length_append; simpl; lia).
  destruct (parse_loop_enough (S (String.length rest)) rest (store_entry e m))
    as [[d m'] Hr]; [lia|].
  now rewrite Hr.
Qed.

(** The text after the last comma is decoded as an entry too. *)
Lemma parse_last_entry (e : string) (m : StdMap.t) :
  free_of "," e -> parse_stored_credentials e m = store_entry e m.
Proof.
  intros He. rewrite parse_unfold. now rewrite parse_loop_exit.
Qed.

Lemma credentials_to_string_loop_acc (m : StdMap.t) :
  forall acc : string,
    credentials_to_string_loop m false acc =
    match m with
    | [] => acc
    | _ :: _ => acc ++ "," ++ credentials_to_string m
    end.
Proof.
  induction m as [|[k v] rest IH]; intros acc; [reflexivity|].
  unfold credentials_to_string. simpl.
  rewrite !IH.
  destruct rest as [|kv rest].
  - rewrite append_assoc. reflexivity.
  - rewrite !append_assoc. reflexivity.
Qed.

Lemma credentials_to_string_cons (k v : string) (rest : StdMap.t) :
  credentials_to_string ((k, v) :: rest) =
  match rest with
  | [] => k ++ ":" ++ v
  | _ :: _ => (k ++ ":" ++ v) ++ "," ++ credentials_to_string rest
  end.
Proof.
  unfold credentials_to_string at 1. simpl.
  rewrite credentials_to_string_loop_acc. destruct rest; reflexivity.
Qed.

Lemma free_of_entry (k v : string) :
  free_of "," k -> free_of "," v -> free_of "," (k ++ ":" ++ v).
Proof.
  intros Hk Hv. apply free_of_append. split; [exact Hk|].
  apply (free_of_append "," ":" v). split; [reflexivity | exact Hv].
Qed.

(** Decoding an encoded map stores its entries one after the other. *)
Lemma parse_encoded (m : StdMap.t) :
  Forall well_formed_entry m ->
  forall m0 : StdMap.t,
    parse_stored_credentials (credentials_to_string m) m0 =
    fold_left (fun acc kv => StdMap.set (fst kv) (snd kv) acc) m m0.
Proof.
  induction 1 as [|[k v] rest (Hk & Hc & Hv) Hrest IH]; intros m0.
  - reflexivity.
  - simpl in Hk, Hc, Hv. rewrite credentials_to_string_cons.
    destruct rest as [|kv rest'].
    + rewrite parse_last_entry by now apply free_of_entry.
      now rewrite store_entry_split.
    + rewrite parse_cons_entry by now apply free_of_entry.
      rewrite store_entry_split by exact Hc.
      rewrite IH. reflexivity.
Qed.

End CodecFacts.

(** ** Facts about traces and lazy initialisation *)

Section RegistryFacts.

Lemma stores_app (t1 t2 : list event) :
  stores (t1 ++ t2)%list = (stores t1 ++ stores t2)%list.
Proof.
  induction t1 as [|e t1 IH]; simpl; [reflexivity|].
  destruct e; simpl; now rewrite IH.
Qed.

Lemma warnings_app (t1 t2 : list event) :
  warnings (t1 ++ t2)%list = (warnings t1 ++ warnings t2)%list.
Proof.
  induction t1 as [|e t1 IH]; simpl; [reflexivity|].
  destruct e; simpl; now rewrite IH.
Qed.

Lemma loads_app (c : cred_class) (t1 t2 : list event) :
  loads c (t1 ++ t2)%list = loads c t1 + loads c t2.
Proof.
  unfold loads. now rewrite filter_app, length_app.
Qed.

Lemma log_each_state (c : cred_class) (m : StdMap.t) (st : registry) :
  state (log_each c m st) = st.
Proof. induction m as [|kv rest IH]; simpl; auto. Qed.

Lemma log_each_stores (c : cred_class) (m : StdMap.t) (st : registry) :
  stores (trace (log_each c m st)) = [].
Proof. induction m as [|kv rest IH]; simpl; auto. Qed.

Lemma log_each_warnings (c : cred_class) (m : StdMap.t) (st : registry) :
  warnings (trace (log_each c m st)) = [].
Proof. induction m as [|kv rest IH]; simpl; auto. Qed.

Lemma log_each_loads (c c' : cred_class) (m : StdMap.t) (st : registry) :
  loads c' (trace (log_each c m st)) = 0.
Proof.
  induction m as [|kv rest IH]; simpl; [reflexivity|].
  unfold loads in *. simpl. destruct c'; exact IH.
Qed.

(** Lines 68-76: what the guarded load leaves in the state. *)
Lemma init_state (st : registry) :
  state (init_default_auth st) =
  if initialized st then st
  else mkRegistry
         (parse_stored_credentials (stored_codes st) (authorized_codes st))
         (parse_stored_credentials (stored_tags st) (authorized_tags st))
         true (stored_codes st) (stored_tags st).
Proof.
  unfold init_default_auth. unfold bind at 1. unfold get_initialized. simpl.
  destruct (initialized st); simpl; [reflexivity|].
  now rewrite !log_each_state.
Qed.

Lemma init_initialized (st : registry) :
  initialized (state (init_default_auth st)) = true.
Proof.
  rewrite init_state. destruct (initialized st) eqn:E; [exact E | reflexivity].
Qed.

(** Once the flag is set the guarded load does nothing. *)
Lemma init_done (st : registry) :
  initialized st = true -> init_default_auth st = mkOutcome tt st [].
Proof.
  intros H. unfold init_default_auth. unfold bind at 1. unfold get_initialized.
  simpl. now rewrite H.
Qed.

(** Lazy initialisation never writes to the persisted globals and never
    warns; it reads each persisted global once, and only when the flag is
    not yet set. *)
Lemma init_stores (st : registry) : stores (trace (init_default_auth st)) = [].
Proof.
  unfold init_default_auth. unfold bind at 1. unfold get_initialized. simpl.
  destruct (initialized st); simpl; [reflexivity|].
  now rewrite stores_app, !log_each_stores.
Qed.

Lemma init_warnings (st : registry) : warnings (trace (init_default_auth st)) = [].
Proof.
  unfold init_default_auth. unfold bind at 1. unfold get_initialized. simpl.
  destruct (initialized st); simpl; [reflexivity|].
  now rewrite warnings_app, !log_each_warnings.
Qed.

Lemma init_loads (c : cred_class) (st : registry) :
  loads c (trace (init_default_auth st)) = if initialized st then 0 else 1.
Proof.
  unfold init_default_auth. unfold bind at 1. unfold get_initialized. simpl.
  destruct (initialized st); simpl; [reflexivity|].
  pose proof log_each_loads as L. unfold loads in *.
  destruct c; simpl; rewrite filter_app, length_app, !L; reflexivity.
Qed.

(** *** The entry points, as functions of the state after the guarded load *)

#[local] Opaque MAX_CODES MAX_TAGS init_default_auth.

Ltac split_init st :=
  unfold bind; cbv zeta;
  generalize (init_default_auth st); intros [[] st1 tr1]; simpl.

Lemma loads_nil (c : cred_class) : loads c [] = 0.
Proof. reflexivity. Qed.

Lemma loads_log_i (c : cred_class) (msg : log_msg) (t : list event) :
  loads c (EvLogI msg :: t) = loads c t.
Proof. destruct c; reflexivity. Qed.

Lemma loads_log_w (c : cred_class) (msg : log_msg) (t : list event) :
  loads c (EvLogW msg :: t) = loads c t.
Proof. destruct c; reflexivity. Qed.

Lemma loads_store (c c' : cred_class) (v : string) (t : list event) :
  loads c (EvStore c' v :: t) = loads c t.
Proof. destruct c; reflexivity. Qed.

Ltac loads_norm :=
  repeat (progress (rewrite ?loads_app, ?log_each_loads, ?loads_log_i,
                      ?loads_log_w, ?loads_store, ?loads_nil)).

Ltac trace_facts Hs :=
  repeat (progress (rewrite ?stores_app, ?Hs, ?log_each_stores; simpl));
  split; [reflexivity | split; [reflexivity|]];
  let c := fresh "c" in
  intros c; loads_norm; lia.

Lemma add_authorized_code_eq (code name : string) (st : registry) :
  add_authorized_code code name st =
  let r0 := init_default_auth st in
  let st1 := state r0 in
  if (MAX_CODES <=? StdMap.size (authorized_codes st1))%nat then
    mkOutcome tt st1 (trace r0 ++ [EvLogW (MsgMaxReached Code MAX_CODES)])
  else
    let codes := StdMap.set code name (authorized_codes st1) in
    mkOutcome tt
      (mkRegistry codes (authorized_tags st1) (initialized st1)
         (credentials_to_string codes) (credentials_to_string (authorized_tags st1)))
      (trace r0 ++
       [EvStore Code (credentials_to_string codes);
        EvStore Tag (credentials_to_string (authorized_tags st1));
        EvLogI (MsgSaved (StdMap.size codes) (StdMap.size (authorized_tags st1)));
        EvLogI (MsgAdded Code name)]).
Proof.
  unfold add_authorized_code. split_init st.
  destruct (MAX_CODES <=? StdMap.size (authorized_codes st1))%nat; reflexivity.
Qed.

Lemma add_authorized_tag_eq (tag name : string) (st : registry) :
  add_authorized_tag tag name st =
  let r0 := init_default_auth st in
  let st1 := state r0 in
  if (MAX_TAGS <=? StdMap.size (authorized_tags st1))%nat then
    mkOutcome tt st1 (trace r0 ++ [EvLogW (MsgMaxReached Tag MAX_TAGS)])
  else
    let tags := StdMap.set tag name (authorized_tags st1) in
    mkOutcome tt
      (mkRegistry (authorized_codes st1) tags (initialized st1)
         (credentials_to_string (authorized_codes st1)) (credentials_to_string tags))
      (trace r0 ++
       [EvStore Code (credentials_to_string (authorized_codes st1));
        EvStore Tag (credentials_to_string tags);
        EvLogI (MsgSaved (StdMap.size (authorized_codes st1)) (StdMap.size tags));
        EvLogI (MsgAdded Tag name)]).
Proof.
  unfold add_authorized_tag. split_init st.
  destruct (MAX_TAGS <=? StdMap.size (authorized_tags st1))%nat; reflexivity.
Qed.

Lemma remove_authorized_code_eq (code : string) (st : registry) :
  remove_authorized_code code st =
  let r0 := init_default_auth st in
  let st1 := state r0 in
  match StdMap.find code (authorized_codes st1) with
  | Some name =>
      let codes := StdMap.erase code (authorized_codes st1) in
      mkOutcome tt
        (mkRegistry codes (authorized_tags st1) (initialized st1)
           (credentials_to_string codes) (credentials_to_string (authorized_tags st1)))
        (trace r0 ++
         [EvLogI (MsgRemoved Code name);
          EvStore Code (credentials_to_string codes);
          EvStore Tag (credentials_to_string (authorized_tags st1));
          EvLogI (MsgSaved (StdMap.size codes) (StdMap.size (authorized_tags st1)))])
  | None => mkOutcome tt st1 (trace r0 ++ [EvLogW (MsgNotFound Code code)])
  end.
Proof.
  unfold remove_authorized_code. split_init st.
  destruct (StdMap.find code (authorized_codes st1)); reflexivity.
Qed.

Lemma remove_authorized_tag_eq (tag : string) (st : registry) :
  remove_authorized_tag tag st =
  let r0 := init_default_auth st in
  let st1 := state r0 in
  match StdMap.find tag (authorized_tags st1) with
  | Some name =>
      let tags := StdMap.erase tag (authorized_tags st1) in
      mkOutcome tt
        (mkRegistry (authorized_codes st1) tags (initialized st1)
           (credentials_to_string (authorized_codes st1)) (credentials_to_string tags))
        (trace r0 ++
         [EvLogI (MsgRemoved Tag name);
          EvStore Code (credentials_to_string (authorized_codes st1));
          EvStore Tag (credentials_to_string tags);
          EvLogI (MsgSaved (StdMap.size (authorized_codes st1)) (StdMap.size tags))])
  | None => mkOutcome tt st1 (trace r0 ++ [EvLogW (MsgNotFound Tag tag)])
  end.
Proof.
  unfold remove_authorized_tag. split_init st.
  destruct (StdMap.find tag (authorized_tags st1)); reflexivity.
Qed.

(** The two clear functions do not start with the guarded load. *)
Lemma clear_all_codes_eq (st : registry) :
  clear_all_codes st =
  mkOutcome tt
    (mkRegistry [] (authorized_tags st) (initialized st)
       "" (credentials_to_string (authorized_tags st)))
    [EvStore Code "";
     EvStore Tag (credentials_to_string (authorized_tags st));
     EvLogI (MsgSaved 0 (StdMap.size (authorized_tags st)));
     EvLogI (MsgCleared Code)].
Proof. reflexivity. Qed.

Lemma clear_all_tags_eq (st : registry) :
  clear_all_tags st =
  mkOutcome tt
    (mkRegistry (authorized_codes st) [] (initialized st)
       (credentials_to_string (authorized_codes st)) "")
    [EvStore Code (credentials_to_string (authorized_codes st));
     EvStore Tag "";
     EvLogI (MsgSaved (StdMap.size (authorized_codes st)) 0);
     EvLogI (MsgCleared Tag)].
Proof. reflexivity. Qed.

(** The lookups and the listings only add log lines to what the guarded
    load does. *)
Lemma lookup_outcome (o : op) (st : registry) :
  persists o (state (init_default_auth st)) = false ->
  state (run_op o st) = state (init_default_auth st)
  /\ stores (trace (run_op o st)) = []
  /\ forall c, loads c (trace (run_op o st)) = loads c (trace (init_default_auth st)).
Proof.
  pose proof (init_stores st) as Hs.
  destruct o; unfold run_op, persists; intros Hp; try discriminate.
  - rewrite add_authorized_code_eq. cbv zeta.
    apply negb_false_iff in Hp. rewrite Hp. simpl. trace_facts Hs.
  - rewrite add_authorized_tag_eq. cbv zeta.
    apply negb_false_iff in Hp. rewrite Hp. simpl. trace_facts Hs.
  - rewrite remove_authorized_code_eq. cbv zeta.
    destruct (StdMap.find code _); [discriminate|]. simpl. trace_facts Hs.
  - rewrite remove_authorized_tag_eq. cbv zeta.
    destruct (StdMap.find tag _); [discriminate|]. simpl. trace_facts Hs.
  - unfold check_authorized_code. revert Hs. split_init st. intros Hs.
    destruct (StdMap.find code (authorized_codes st1)); simpl; trace_facts Hs.
  - unfold check_authorized_tag. revert Hs. split_init st. intros Hs.
    destruct (StdMap.find tag (authorized_tags st1)); simpl; trace_facts Hs.
  - unfold get_code_user_name. revert Hs. split_init st. intros Hs.
    destruct (StdMap.find code (authorized_codes st1)); simpl; trace_facts Hs.
  - unfold get_tag_user_name. revert Hs. split_init st. intros Hs.
    destruct (StdMap.find tag (authorized_tags st1)); simpl; trace_facts Hs.
  - unfold list_authorized_codes. revert Hs. split_init st. intros Hs.
    rewrite log_each_state. trace_facts Hs.
  - unfold list_authorized_tags. revert Hs. split_init st. intros Hs.
    rewrite log_each_state. trace_facts Hs.
Qed.

(** *** What one call does, for every entry point *)

Ltac op_eq :=
  unfold run_op, entry_state, is_clear, persists;
  rewrite ?add_authorized_code_eq, ?add_authorized_tag_eq,
    ?remove_authorized_code_eq, ?remove_authorized_tag_eq,
    ?clear_all_codes_eq, ?clear_all_tags_eq;
  cbv zeta.

Ltac lookup_case :=
  match goal with
  | |- context [run_op ?o ?st] =>
      let H := fresh "H" in
      destruct (lookup_outcome o st eq_refl) as (H & _);
      unfold entry_state, is_clear; rewrite H; reflexivity
  end.

(** A call that does not reach [save_credentials] leaves the state as the
    guarded load left it and writes nothing. *)
Lemma run_op_quiet (o : op) (st : registry) :
  persists o (entry_state o st) = false ->
  state (run_op o st) = entry_state o st /\ stores (trace (run_op o st)) = [].
Proof.
  intros Hp.
  assert (is_clear o = false) as Hc by (destruct o; try reflexivity; discriminate).
  unfold entry_state in *. rewrite Hc in *.
  destruct (lookup_outcome o st Hp) as (H1 & H2 & _). auto.
Qed.

(** A call that reaches [save_credentials] writes both persisted globals,
    once each, with the encodings of the maps it returns with. *)
Lemma run_op_saves (o : op) (st : registry) :
  persists o (entry_state o st) = true ->
  stores (trace (run_op o st)) = saved (state (run_op o st))
  /\ stored_codes (state (run_op o st)) =
     credentials_to_string (authorized_codes (state (run_op o st)))
  /\ stored_tags (state (run_op o st)) =
     credentials_to_string (authorized_tags (state (run_op o st))).
Proof.
  pose proof (init_stores st) as Hs.
  destruct o; try discriminate; op_eq; intros Hp.
  - apply negb_true_iff in Hp. rewrite Hp. simpl.
    rewrite stores_app, Hs. repeat split.
  - apply negb_true_iff in Hp. rewrite Hp. simpl.
    rewrite stores_app, Hs. repeat split.
  - destruct (StdMap.find code _); [|discriminate]. simpl.
    rewrite stores_app, Hs. repeat split.
  - destruct (StdMap.find tag _); [|discriminate]. simpl.
    rewrite stores_app, Hs. repeat split.
  - repeat split.
  - repeat split.
Qed.

(** A call never resets the flag, and only the guarded load sets it. *)
Lemma run_op_initialized (o : op) (st : registry) :
  initialized (state (run_op o st)) = initialized (entry_state o st).
Proof.
  destruct o; try lookup_case; op_eq.
  - destruct (_ <=? _)%nat; reflexivity.
  - destruct (_ <=? _)%nat; reflexivity.
  - destruct (StdMap.find code _); reflexivity.
  - destruct (StdMap.find tag _); reflexivity.
  - reflexivity.
  - reflexivity.
Qed.

(** The maps a call returns with. *)
Lemma run_op_codes (o : op) (st : registry) :
  authorized_codes (state (run_op o st)) =
  match o with
  | AddCode code name =>
      if persists o (entry_state o st)
      then StdMap.set code name (authorized_codes (entry_state o st))
      else authorized_codes (entry_state o st)
  | RemoveCode code =>
      if persists o (entry_state o st)
      then StdMap.erase code (authorized_codes (entry_state o st))
      else authorized_codes (entry_state o st)
  | ClearCodes => []
  | _ => authorized_codes (entry_state o st)
  end.
Proof.
  destruct o; try lookup_case; op_eq.
  - destruct (_ <=? _)%nat; reflexivity.
  - destruct (_ <=? _)%nat; reflexivity.
  - destruct (StdMap.find code _); reflexivity.
  - destruct (StdMap.find tag _); reflexivity.
  - reflexivity.
  - reflexivity.
Qed.

Lemma run_op_tags (o : op) (st : registry) :
  authorized_tags (state (run_op o st)) =
  match o with
  | AddTag tag name =>
      if persists o (entry_state o st)
      then StdMap.set tag name (authorized_tags (entry_state o st))
      else authorized_tags (entry_state o st)
  | RemoveTag tag =>
      if persists o (entry_state o st)
      then StdMap.erase tag (authorized_tags (entry_state o st))
      else authorized_tags (entry_state o st)
  | ClearTags => []
  | _ => authorized_tags (entry_state o st)
  end.
Proof.
  destruct o; try lookup_case; op_eq.
  - destruct (_ <=? _)%nat; reflexivity.
  - destruct (_ <=? _)%nat; reflexivity.
  - destruct (StdMap.find code _); reflexivity.
  - destruct (StdMap.find tag _); reflexivity.
  - reflexivity.
  - reflexivity.
Qed.

Lemma run_op_loads (c : cred_class) (o : op) (st : registry) :
  loads c (trace (run_op o st)) =
  if is_clear o then 0 else if initialized st then 0 else 1.
Proof.
  pose proof (init_loads c st) as Hl.
  destruct o; unfold is_clear;
    try (match goal with
         | |- context [run_op ?o st] =>
             destruct (lookup_outcome o st eq_refl) as (_ & _ & H);
             rewrite H; exact Hl
         end);
    op_eq.
  - destruct (_ <=? _)%nat; simpl; rewrite loads_app, Hl;
      loads_norm; lia.
  - destruct (_ <=? _)%nat; simpl; rewrite loads_app, Hl;
      loads_norm; lia.
  - destruct (StdMap.find code _); simpl; rewrite loads_app, Hl;
      loads_norm; lia.
  - destruct (StdMap.find tag _); simpl; rewrite loads_app, Hl;
      loads_norm; lia.
  - simpl. destruct c; reflexivity.
  - simpl. destruct c; reflexivity.
Qed.

Lemma run_ops_cons (o : op) (os : list op) (st : registry) :
  state (run_ops (o :: os) st) = state (run_ops os (state (run_op o st)))
  /\ trace (run_ops (o :: os) st) =
     (trace (run_op o st) ++ trace (run_ops os (state (run_op o st))))%list.
Proof. split; reflexivity. Qed.

(** A property kept by every call holds after every sequence of calls. *)
Lemma run_ops_invariant (P : registry -> Prop) :
  (forall o st, P st -> P (state (run_op o st))) ->
  forall os st, P st -> P (state (run_ops os st)).
Proof.
  intros Hstep os. induction os as [|o os IH]; intros st H; [exact H|].
  rewrite (proj1 (run_ops_cons o os st)). apply IH, Hstep, H.
Qed.

Lemma sizes_within_entry (bc bt : nat) (o : op) (st : registry) :
  sizes_within bc bt st ->
  sizes_within bc bt (entry_state o st)
  /\ (is_clear o = false -> initialized (entry_state o st) = true).
Proof.
  intros Hst. unfold entry_state.
  destruct (is_clear o); [split; [exact Hst | discriminate]|].
  split; [|intros _; apply init_initialized].
  rewrite init_state.
  destruct (initialized st) eqn:Ei; [exact Hst|].
  destruct Hst as (Hc & Ht & Hu).
  destruct (Hu Ei) as (Ec & Et & Pc & Pt). rewrite Ec, Et.
  split; [exact Pc | split; [exact Pt | discriminate]].
Qed.

Lemma sizes_within_step (bc bt : nat) (o : op) (st : registry) :
  MAX_CODES <= bc -> MAX_TAGS <= bt ->
  sizes_within bc bt st -> sizes_within bc bt (state (run_op o st)).
Proof.
  intros Hbc Hbt Hst.
  destruct (sizes_within_entry bc bt o st Hst) as ((Hc & Ht & Hu) & Hi).
  unfold sizes_within.
  rewrite run_op_codes, run_op_tags, run_op_initialized.
  split; [|split].
  - destruct o; try exact Hc.
    + destruct (persists _ _) eqn:P; [|exact Hc].
      unfold persists in P. apply negb_true_iff, Nat.leb_gt in P.
      pose proof (size_set_le code name (authorized_codes (entry_state (AddCode code name) st))).
      lia.
    + destruct (persists _ _); [|exact Hc].
      pose proof (size_erase_le code (authorized_codes (entry_state (RemoveCode code) st))).
      lia.
    + unfold StdMap.size. simpl. lia.
  - destruct o; try exact Ht.
    + destruct (persists _ _) eqn:P; [|exact Ht].
      unfold persists in P. apply negb_true_iff, Nat.leb_gt in P.
      pose proof (size_set_le tag name (authorized_tags (entry_state (AddTag tag name) st))).
      lia.
    + destruct (persists _ _); [|exact Ht].
      pose proof (size_erase_le tag (authorized_tags (entry_state (RemoveTag tag) st))).
      lia.
    + unfold StdMap.size. simpl. lia.
  - intros Hfalse.
    destruct o; try (specialize (Hi eq_refl); congruence);
      destruct (Hu Hfalse) as (Ec & Et & Pc & Pt);
      unfold entry_state, is_clear in *; unfold run_op.
    + rewrite clear_all_codes_eq. simpl. rewrite Et. simpl.
      repeat split; unfold StdMap.size; simpl; lia.
    + rewrite clear_all_tags_eq. simpl. rewrite Ec. simpl.
      repeat split; unfold StdMap.size; simpl; lia.
Qed.

(** *** The representation invariant is kept *)

Lemma store_entry_ordered (e : string) (m : StdMap.t) :
  StdMap.ordered m -> StdMap.ordered (store_entry e m).
Proof.
  intros H. unfold store_entry. destruct (find ":" e); [|exact H].
  now apply ordered_set.
Qed.

Lemma parse_loop_ordered (fuel : nat) :
  forall (data d : string) (m m' : StdMap.t),
    StdMap.ordered m -> parse_loop fuel data m = Some (d, m') -> StdMap.ordered m'.
Proof.
  induction fuel as [|fuel IH]; intros data d m m' Hm H; [discriminate|].
  simpl in H. destruct (find "," data) as [pos|].
  - eapply IH; [|exact H]. now apply store_entry_ordered.
  - inversion H; subst. exact Hm.
Qed.

Lemma parse_ordered (data : string) (m : StdMap.t) :
  StdMap.ordered m -> StdMap.ordered (parse_stored_credentials data m).
Proof.
  intros Hm. rewrite parse_unfold.
  destruct (parse_loop _ data m) as [[d m']|] eqn:E; [|exact Hm].
  apply store_entry_ordered. eapply parse_loop_ordered; eassumption.
Qed.

Lemma init_ok (st : registry) :
  registry_ok st -> registry_ok (state (init_default_auth st)).
Proof.
  intros (Hc & Ht). rewrite init_state.
  destruct (initialized st); [split; assumption|].
  split; simpl; now apply parse_ordered.
Qed.

Lemma entry_state_ok (o : op) (st : registry) :
  registry_ok st -> registry_ok (entry_state o st).
Proof.
  intros H. unfold entry_state. destruct (is_clear o); [exact H|].
  now apply init_ok.
Qed.

Lemma run_op_ok (o : op) (st : registry) :
  registry_ok st -> registry_ok (state (run_op o st)).
Proof.
  intros H. destruct (entry_state_ok o st H) as (Hc & Ht).
  unfold registry_ok. rewrite run_op_codes, run_op_tags. split.
  - destruct o; try exact Hc.
    + destruct (persists _ _); [now apply ordered_set | exact Hc].
    + destruct (persists _ _); [now apply ordered_erase | exact Hc].
    + constructor.
  - destruct o; try exact Ht.
    + destruct (persists _ _); [now apply ordered_set | exact Ht].
    + destruct (persists _ _); [now apply ordered_erase | exact Ht].
    + constructor.
Qed.

Lemma boot_ok (codes_data tags_data : string) :
  registry_ok (boot codes_data tags_data).
Proof. split; constructor. Qed.

(** Every state the entry points can reach from program start satisfies the
    representation invariant. *)
Lemma reachable_ok (codes_data tags_data : string) (os : list op) :
  registry_ok (state (run_ops os (boot codes_data tags_data))).
Proof.
  apply (run_ops_invariant registry_ok run_op_ok). apply boot_ok.
Qed.

End RegistryFacts.

(** * The codec *)

(** C4. Decoding ["a:1,bad,b:2"] gives exactly the two entries [a -> "1"]
    and [b -> "2"]: the entry without a colon is dropped and the entry after
    the last comma is kept. Decoding never fails: on every input, with every
    target map, the scanning loop ends within its iteration bound and the
    function returns a map. *)
Theorem decode_lenient_total :
  parse_stored_credentials "a:1,bad,b:2" [] = [("a", "1"); ("b", "2")]
  /\ forall (s : string) (m : StdMap.t),
       exists r : StdMap.t,
         parse_stored_credentials_fuel (S (String.length s)) s m = Some r
         /\ parse_stored_credentials s m = r.
Proof.
  split; [reflexivity|].
  intros s m. exists (parse_stored_credentials s m).
  split; [|reflexivity].
  apply parse_stored_credentials_fuel_enough. lia.
Qed.

(** C7. Round trip: for every map whose ids contain neither a comma nor a
    colon and whose names contain no comma (names may contain colons, since
    an entry is split at its first colon only), decoding the encoding of the
    map into an empty map gives the map back. *)
Theorem decode_encode_roundtrip (m : StdMap.t) :
  StdMap.ordered m ->
  Forall well_formed_entry m ->
  parse_stored_credentials (credentials_to_string m) [] = m.
Proof.
  intros Hord Hwf. rewrite parse_encoded by exact Hwf.
  now rewrite fold_set_ordered.
Qed.

Lemma decode_encode_roundtrip_witness :
  parse_stored_credentials
    (credentials_to_string [("1234", "Alice:admin"); ("5678", "Bob")]) []
  = [("1234", "Alice:admin"); ("5678", "Bob")].
Proof.
  apply decode_encode_roundtrip.
  - repeat constructor.
  - repeat constructor.
Defined.

(** C9. An entry is stored whenever it contains a colon, also when the text
    before the first colon or the text after it is empty: [":name"] stores
    the empty id with name ["name"] and ["id:"] stores ["id"] with the empty
    name. This holds for the trailing entry and for an entry followed by a
    comma. Only an entry without any colon is dropped. *)
Theorem decode_empty_key_or_value (k v : string) (m : StdMap.t) :
  free_of "," k -> free_of ":" k -> free_of "," v ->
  parse_stored_credentials (k ++ ":" ++ v) m = StdMap.set k v m
  /\ StdMap.find k (parse_stored_credentials (k ++ ":" ++ v) m) = Some v
  /\ (forall rest : string,
        parse_stored_credentials ((k ++ ":" ++ v) ++ "," ++ rest) m =
        parse_stored_credentials rest (StdMap.set k v m))
  /\ parse_stored_credentials k m = m
  /\ (forall rest : string,
        parse_stored_credentials (k ++ "," ++ rest) m =
        parse_stored_credentials rest m).
Proof.
  intros Hk Hc Hv.
  assert (He : free_of "," (k ++ ":" ++ v)) by now apply free_of_entry.
  assert (E : parse_stored_credentials (k ++ ":" ++ v) m = StdMap.set k v m).
  { rewrite parse_last_entry by exact He. now apply store_entry_split. }
  split; [exact E|]. split; [rewrite E; apply find_set_same|].
  split; [|split].
  - intros rest. rewrite parse_cons_entry by exact He.
    now rewrite store_entry_split.
  - rewrite parse_last_entry by exact Hk. now apply store_entry_no_colon.
  - intros rest. rewrite parse_cons_entry by exact Hk.
    now rewrite store_entry_no_colon.
Qed.

Lemma decode_empty_key_or_value_witness :
  parse_stored_credentials ":name" [] = [("", "name")]
  /\ parse_stored_credentials "id:" [] = [("id", "")].
Proof.
  split.
  - exact (proj1 (decode_empty_key_or_value "" "name" []
                    eq_refl eq_refl eq_refl)).
  - exact (proj1 (decode_empty_key_or_value "id" "" []
                    eq_refl eq_refl eq_refl)).
Defined.

(** C10. The scanning loop of the decoder terminates on every input. When
    the remaining text contains a comma at index [pos], one iteration stores
    the entry before it and goes on with the text after it: the prefix up to
    and including that first comma is removed, so the remaining text gets
    strictly shorter. Hence the loop exits within one more iteration than
    the text has characters, whatever the text. *)
Theorem decode_loop_terminates (data : string) (m : StdMap.t) :
  (forall pos : nat,
     find "," data = Some pos ->
     data = substr data 0 pos ++ "," ++ erase_front data (pos + 1)
     /\ free_of "," (substr data 0 pos)
     /\ String.length (erase_front data (pos + 1)) < String.length data
     /\ forall fuel : nat,
          parse_loop (S fuel) data m =
          parse_loop fuel (erase_front data (pos + 1))
            (store_entry (substr data 0 pos) m))
  /\ exists r, parse_loop (S (String.length data)) data m = Some r.
Proof.
  split.
  - intros pos H. destruct (find_split _ _ _ H) as (H1 & H2 & _).
    split; [exact H1|]. split; [exact H2|].
    split; [now apply erase_front_shorter|].
    intros fuel. simpl. now rewrite H.
  - apply parse_loop_enough. lia.
Qed.

Lemma decode_loop_terminates_witness :
  String.length (erase_front "a:1,bad,b:2" (3 + 1)) < String.length "a:1,bad,b:2"
  /\ exists r, parse_loop (S (String.length "a:1,bad,b:2")) "a:1,bad,b:2" [] = Some r.
Proof.
  destruct (decode_loop_terminates "a:1,bad,b:2" []) as (Hstep & Hend).
  split; [|exact Hend].
  exact (proj1 (proj2 (proj2 (Hstep 3 eq_refl)))).
Defined.

(** * The registry *)

#[local] Opaque MAX_CODES MAX_TAGS init_default_auth.

(** What a run of calls loads: the persisted string of each class is read at
    most once, by the first call that is not one of the two clear functions;
    a run made of clear calls only never reads it. *)
Lemma run_ops_loads (c : cred_class) (os : list op) :
  forall st : registry,
    initialized st = false ->
    loads c (trace (run_ops os st)) = (if forallb is_clear os then 0 else 1)
    /\ initialized (state (run_ops os st)) = negb (forallb is_clear os).
Proof.
  assert (Hdone : forall os st, initialized st = true ->
            loads c (trace (run_ops os st)) = 0
            /\ initialized (state (run_ops os st)) = true).
  { clear os. induction os as [|o os IH]; intros st Hi; [split; [reflexivity | exact Hi]|].
    destruct (run_ops_cons o os st) as (Es & Et). rewrite Es, Et, loads_app.
    assert (Hi' : initialized (state (run_op o st)) = true).
    { rewrite run_op_initialized. unfold entry_state.
      destruct (is_clear o); [exact Hi | apply init_initialized]. }
    destruct (IH _ Hi') as (L & I). rewrite L, I, run_op_loads, Hi.
    destruct (is_clear o); auto. }
  induction os as [|o os IH]; intros st Hi; [split; [reflexivity | exact Hi]|].
  destruct (run_ops_cons o os st) as (Es & Et). rewrite Es, Et, loads_app.
  rewrite run_op_loads, Hi. simpl forallb.
  destruct (is_clear o) eqn:Ec; simpl.
  - apply IH. rewrite run_op_initialized. unfold entry_state. now rewrite Ec.
  - assert (Hi' : initialized (state (run_op o st)) = true).
    { rewrite run_op_initialized. unfold entry_state. rewrite Ec.
      apply init_initialized. }
    destruct (Hdone os _ Hi') as (L & I). rewrite L, I. auto.
Qed.

(** C2. The two clear functions do not call [init_default_auth]: after
    [clear_all_codes] as the only call since program start, neither persisted
    string has been read, the flag is still unset, and the persisted tags,
    which were never loaded, have been overwritten with the encoding of the
    empty map. *)
Theorem clear_skips_lazy_init :
  loads Code (trace (run_ops [ClearCodes] (boot "1234:Alice" "77:Bob"))) = 0
  /\ loads Tag (trace (run_ops [ClearCodes] (boot "1234:Alice" "77:Bob"))) = 0
  /\ initialized (state (run_ops [ClearCodes] (boot "1234:Alice" "77:Bob"))) = false
  /\ stored_tags (state (run_ops [ClearCodes] (boot "1234:Alice" "77:Bob"))) = ""
  /\ loads Code (trace (run_ops [ListCodes] (boot "1234:Alice" "77:Bob"))) = 1
  /\ loads Tag (trace (run_ops [ListCodes] (boot "1234:Alice" "77:Bob"))) = 1.
Proof. vm_compute. repeat split. Qed.

(** C1, counterexample. The codes map holds 50 entries and ["A"] is one of
    its ids; adding ["A"] with a new name is refused with the capacity
    warning and the name of ["A"] is not updated. *)
Lemma add_existing_id_at_capacity :
  StdMap.size (authorized_codes (loaded (lettered 50) [])) = MAX_CODES
  /\ StdMap.find "A" (authorized_codes (loaded (lettered 50) [])) = Some "user"
  /\ StdMap.find "A"
       (authorized_codes
          (state (add_authorized_code "A" "Carol" (loaded (lettered 50) []))))
     <> Some "Carol"
  /\ warnings (trace (add_authorized_code "A" "Carol" (loaded (lettered 50) [])))
     = [MsgMaxReached Code MAX_CODES].
Proof.
  vm_compute. repeat split. discriminate.
Qed.

(** C1, as the code has it. When the map of the class holds 50 entries or
    more after the guarded load, the add is refused with the capacity
    warning whether or not the id is already a key: the state stays as the
    guarded load left it and nothing is persisted. When the map holds fewer
    than 50 entries the id is inserted or its name overwritten, and the
    state is persisted. *)
Theorem add_at_capacity (st : registry) (id name : string) :
  (MAX_CODES <= StdMap.size (authorized_codes (state (init_default_auth st))) ->
     state (add_authorized_code id name st) = state (init_default_auth st)
     /\ stores (trace (add_authorized_code id name st)) = []
     /\ warnings (trace (add_authorized_code id name st))
        = [MsgMaxReached Code MAX_CODES])
  /\ (MAX_TAGS <= StdMap.size (authorized_tags (state (init_default_auth st))) ->
     state (add_authorized_tag id name st) = state (init_default_auth st)
     /\ stores (trace (add_authorized_tag id name st)) = []
     /\ warnings (trace (add_authorized_tag id name st))
        = [MsgMaxReached Tag MAX_TAGS])
  /\ (StdMap.size (authorized_codes (state (init_default_auth st))) < MAX_CODES ->
     authorized_codes (state (add_authorized_code id name st))
       = StdMap.set id name (authorized_codes (state (init_default_auth st)))
     /\ StdMap.find id (authorized_codes (state (add_authorized_code id name st)))
        = Some name
     /\ stores (trace (add_authorized_code id name st))
        = saved (state (add_authorized_code id name st))
     /\ warnings (trace (add_authorized_code id name st)) = [])
  /\ (StdMap.size (authorized_tags (state (init_default_auth st))) < MAX_TAGS ->
     authorized_tags (state (add_authorized_tag id name st))
       = StdMap.set id name (authorized_tags (state (init_default_auth st)))
     /\ StdMap.find id (authorized_tags (state (add_authorized_tag id name st)))
        = Some name
     /\ stores (trace (add_authorized_tag id name st))
        = saved (state (add_authorized_tag id name st))
     /\ warnings (trace (add_authorized_tag id name st)) = []).
Proof.
  pose proof (init_stores st) as Hs. pose proof (init_warnings st) as Hw.
  rewrite add_authorized_code_eq, add_authorized_tag_eq. cbv zeta.
  split; [|split; [|split]]; intros H.
  - apply Nat.leb_le in H. rewrite H. simpl.
    now rewrite stores_app, warnings_app, Hs, Hw.
  - apply Nat.leb_le in H. rewrite H. simpl.
    now rewrite stores_app, warnings_app, Hs, Hw.
  - apply Nat.leb_gt in H. rewrite H. simpl.
    rewrite stores_app, warnings_app, Hs, Hw, find_set_same. now repeat split.
  - apply Nat.leb_gt in H. rewrite H. simpl.
    rewrite stores_app, warnings_app, Hs, Hw, find_set_same. now repeat split.
Qed.

Lemma add_at_capacity_witness :
  state (add_authorized_code "zz" "Carol" (loaded (lettered 50) []))
    = state (init_default_auth (loaded (lettered 50) []))
  /\ StdMap.find "A"
       (authorized_codes (state (add_authorized_code "A" "Carol" (loaded (lettered 49) []))))
     = Some "Carol".
Proof.
  split.
  - destruct (add_at_capacity (loaded (lettered 50) []) "zz" "Carol")
      as (H & _).
    apply H. vm_compute. apply le_n.
  - destruct (add_at_capacity (loaded (lettered 49) []) "A" "Carol")
      as (_ & _ & H & _).
    apply H. vm_compute. apply le_n.
Defined.

(** C3, counterexample. The guarded load does not cap what it decodes: with
    a persisted codes string of 51 entries, the codes map holds 51 entries
    after the first call. *)
Lemma load_exceeds_capacity :
  StdMap.size
    (authorized_codes
       (state (run_ops [ListCodes] (boot (credentials_to_string (lettered 51)) ""))))
  = 51
  /\ ~ 51 <= MAX_CODES.
Proof.
  split; [vm_compute; reflexivity|].
  vm_compute. intros H. repeat (apply le_S_n in H). inversion H.
Qed.

(** The two maps never grow beyond the larger of the capacity and the number
    of entries the persisted string of their class decodes to. *)
Lemma reachable_sizes (codes_data tags_data : string) (os : list op) :
  sizes_within
    (Nat.max MAX_CODES (StdMap.size (parse_stored_credentials codes_data [])))
    (Nat.max MAX_TAGS (StdMap.size (parse_stored_credentials tags_data [])))
    (state (run_ops os (boot codes_data tags_data))).
Proof.
  apply run_ops_invariant.
  - intros o st. apply sizes_within_step; lia.
  - unfold sizes_within, boot, StdMap.size. simpl. repeat split; lia.
Qed.

(** C3, as the code has it. When each persisted string decodes to at most
    50 entries, both maps hold at most 50 entries in every state that calls
    of the entry points reach from program start. *)
Theorem capacity_invariant (codes_data tags_data : string) (os : list op) :
  StdMap.size (parse_stored_credentials codes_data []) <= MAX_CODES ->
  StdMap.size (parse_stored_credentials tags_data []) <= MAX_TAGS ->
  StdMap.size (authorized_codes (state (run_ops os (boot codes_data tags_data))))
    <= MAX_CODES
  /\ StdMap.size (authorized_tags (state (run_ops os (boot codes_data tags_data))))
    <= MAX_TAGS.
Proof.
  intros Hc Ht.
  destruct (reachable_sizes codes_data tags_data os) as (H1 & H2 & _).
  split; lia.
Qed.

Lemma capacity_invariant_witness :
  StdMap.size
    (authorized_codes
       (state (run_ops [AddCode "9999" "Carol"; ClearTags]
                 (boot "1234:Alice,5678:Bob" ""))))
    <= MAX_CODES
  /\ StdMap.size
    (authorized_tags
       (state (run_ops [AddCode "9999" "Carol"; ClearTags]
                 (boot "1234:Alice,5678:Bob" ""))))
    <= MAX_TAGS.
Proof.
  apply capacity_invariant.
  - vm_compute. repeat constructor.
  - vm_compute. repeat constructor.
Defined.

(** C5, counterexample. Names are stored and encoded as they are given. After
    adding code ["a"] with the name ["x,b:y"] and code ["b"] with the name
    ["z"], removing ["b"] succeeds and erases it from the map in memory, but
    the persisted codes string is ["a:x,b:y"]: it still carries an entry for
    ["b"], and after a restart ["b"] is authorised again, as user ["y"]. *)
Lemma removed_id_still_persisted :
  StdMap.find "b"
    (authorized_codes
       (state (run_ops [AddCode "a" "x,b:y"; AddCode "b" "z"] (boot "" ""))))
  = Some "z"
  /\ StdMap.find "b"
       (authorized_codes
          (state (remove_authorized_code "b"
                    (state (run_ops [AddCode "a" "x,b:y"; AddCode "b" "z"]
                              (boot "" ""))))))
     = None
  /\ stores
       (trace (remove_authorized_code "b"
                 (state (run_ops [AddCode "a" "x,b:y"; AddCode "b" "z"]
                           (boot "" "")))))
     = [(Code, "a:x,b:y"); (Tag, "")]
  /\ StdMap.find "b"
       (parse_stored_credentials
          (stored_codes
             (state (remove_authorized_code "b"
                       (state (run_ops [AddCode "a" "x,b:y"; AddCode "b" "z"]
                                 (boot "" "")))))) [])
     <> None
  /\ value
       (check_authorized_code "b"
          (reboot
             (state (remove_authorized_code "b"
                       (state (run_ops [AddCode "a" "x,b:y"; AddCode "b" "z"]
                                 (boot "" "")))))))
     = true
  /\ value
       (get_code_user_name "b"
          (reboot
             (state (remove_authorized_code "b"
                       (state (run_ops [AddCode "a" "x,b:y"; AddCode "b" "z"]
                                 (boot "" "")))))))
     = "y".
Proof.
  vm_compute. repeat split. discriminate.
Qed.

(** C5, as the code has it. Removing an id that is absent warns that it was
    not found, leaves the state as the guarded load left it and writes
    nothing to the persisted strings. Removing an id that is present erases
    exactly that entry and then saves once: the persisted strings become the
    encodings of the maps without the id. The persisted string decodes to a
    map in which the id is absent when every entry of the class is well
    formed (no comma or colon in an id, no comma in a name); the code does
    not check this when it adds an entry. *)
Theorem remove_semantics (st : registry) (id : string) :
  registry_ok st ->
  (StdMap.find id (authorized_codes (state (init_default_auth st))) = None ->
     state (remove_authorized_code id st) = state (init_default_auth st)
     /\ stores (trace (remove_authorized_code id st)) = []
     /\ warnings (trace (remove_authorized_code id st)) = [MsgNotFound Code id])
  /\ (StdMap.find id (authorized_tags (state (init_default_auth st))) = None ->
     state (remove_authorized_tag id st) = state (init_default_auth st)
     /\ stores (trace (remove_authorized_tag id st)) = []
     /\ warnings (trace (remove_authorized_tag id st)) = [MsgNotFound Tag id])
  /\ (StdMap.find id (authorized_codes (state (init_default_auth st))) <> None ->
     authorized_codes (state (remove_authorized_code id st))
       = StdMap.erase id (authorized_codes (state (init_default_auth st)))
     /\ S (StdMap.size (authorized_codes (state (remove_authorized_code id st))))
        = StdMap.size (authorized_codes (state (init_default_auth st)))
     /\ StdMap.find id (authorized_codes (state (remove_authorized_code id st))) = None
     /\ (forall k, k <> id ->
           StdMap.find k (authorized_codes (state (remove_authorized_code id st)))
           = StdMap.find k (authorized_codes (state (init_default_auth st))))
     /\ stores (trace (remove_authorized_code id st))
        = saved (state (remove_authorized_code id st))
     /\ warnings (trace (remove_authorized_code id st)) = []
     /\ (Forall well_formed_entry (authorized_codes (state (init_default_auth st))) ->
         StdMap.find id
           (parse_stored_credentials
              (stored_codes (state (remove_authorized_code id st))) []) = None))
  /\ (StdMap.find id (authorized_tags (state (init_default_auth st))) <> None ->
     authorized_tags (state (remove_authorized_tag id st))
       = StdMap.erase id (authorized_tags (state (init_default_auth st)))
     /\ S (StdMap.size (authorized_tags (state (remove_authorized_tag id st))))
        = StdMap.size (authorized_tags (state (init_default_auth st)))
     /\ StdMap.find id (authorized_tags (state (remove_authorized_tag id st))) = None
     /\ (forall k, k <> id ->
           StdMap.find k (authorized_tags (state (remove_authorized_tag id st)))
           = StdMap.find k (authorized_tags (state (init_default_auth st))))
     /\ stores (trace (remove_authorized_tag id st))
        = saved (state (remove_authorized_tag id st))
     /\ warnings (trace (remove_authorized_tag id st)) = []
     /\ (Forall well_formed_entry (authorized_tags (state (init_default_auth st))) ->
         StdMap.find id
           (parse_stored_credentials
              (stored_tags (state (remove_authorized_tag id st))) []) = None)).
Proof.
  intros Hok. apply init_ok in Hok. destruct Hok as (Hoc & Hot).
  pose proof (init_stores st) as Hs. pose proof (init_warnings st) as Hw.
  rewrite remove_authorized_code_eq, remove_authorized_tag_eq. cbv zeta.
  split; [|split; [|split]]; intros H.
  - rewrite H. simpl. now rewrite stores_app, warnings_app, Hs, Hw.
  - rewrite H. simpl. now rewrite stores_app, warnings_app, Hs, Hw.
  - destruct (StdMap.find id (authorized_codes _)) as [name|] eqn:F; [|congruence].
    simpl. rewrite stores_app, warnings_app, Hs, Hw.
    rewrite (size_erase_found _ _ _ F), find_erase_same by exact Hoc.
    repeat split.
    + intros k Hk. now apply find_erase_other.
    + intros Hwf. rewrite parse_encoded by now apply Forall_erase.
      rewrite fold_set_ordered by now apply ordered_erase.
      now apply find_erase_same.
  - destruct (StdMap.find id (authorized_tags _)) as [name|] eqn:F; [|congruence].
    simpl. rewrite stores_app, warnings_app, Hs, Hw.
    rewrite (size_erase_found _ _ _ F), find_erase_same by exact Hot.
    repeat split.
    + intros k Hk. now apply find_erase_other.
    + intros Hwf. rewrite parse_encoded by now apply Forall_erase.
      rewrite fold_set_ordered by now apply ordered_erase.
      now apply find_erase_same.
Qed.

Lemma remove_semantics_witness :
  stores (trace (remove_authorized_code "x" (boot "1234:Alice,5678:Bob" ""))) = []
  /\ stores (trace (remove_authorized_code "1234" (boot "1234:Alice,5678:Bob" "")))
     = saved (state (remove_authorized_code "1234" (boot "1234:Alice,5678:Bob" "")))
  /\ StdMap.find "1234"
       (parse_stored_credentials
          (stored_codes
             (state (remove_authorized_code "1234" (boot "1234:Alice,5678:Bob" ""))))
          [])
     = None.
Proof.
  split; [|split].
  - destruct (remove_semantics (boot "1234:Alice,5678:Bob" "") "x"
                (boot_ok _ _)) as (H & _).
    apply H. vm_compute. reflexivity.
  - destruct (remove_semantics (boot "1234:Alice,5678:Bob" "") "1234"
                (boot_ok _ _)) as (_ & _ & H & _).
    apply H. vm_compute. discriminate.
  - destruct (remove_semantics (boot "1234:Alice,5678:Bob" "") "1234"
                (boot_ok _ _)) as (_ & _ & H & _).
    assert (P : StdMap.find "1234"
                  (authorized_codes
                     (state (init_default_auth (boot "1234:Alice,5678:Bob" ""))))
                <> None) by (vm_compute; discriminate).
    destruct (H P) as (_ & _ & _ & _ & _ & _ & D).
    apply D. vm_compute. repeat constructor.
Defined.

(** C6. A call that gets past its guard (an add below capacity, a remove of
    an id that is present, every clear, also of an empty map) makes one save:
    the two persisted strings are written once each, codes then tags, with
    the encodings of both maps as the call leaves them, whichever class the
    call changed. A call that does not get past its guard leaves the state as
    it was at entry and writes nothing. *)
Theorem mutation_persists_both_classes (o : op) (st : registry) :
  (persists o (entry_state o st) = true ->
     stores (trace (run_op o st))
       = [(Code, credentials_to_string (authorized_codes (state (run_op o st))));
          (Tag, credentials_to_string (authorized_tags (state (run_op o st))))]
     /\ stored_codes (state (run_op o st))
        = credentials_to_string (authorized_codes (state (run_op o st)))
     /\ stored_tags (state (run_op o st))
        = credentials_to_string (authorized_tags (state (run_op o st))))
  /\ (persists o (entry_state o st) = false ->
     state (run_op o st) = entry_state o st
     /\ stores (trace (run_op o st)) = [])
  /\ (is_clear o = true -> persists o (entry_state o st) = true).
Proof.
  split; [|split].
  - apply run_op_saves.
  - apply run_op_quiet.
  - destruct o; try discriminate; reflexivity.
Qed.

Lemma mutation_persists_both_classes_witness :
  stores (trace (run_op ClearTags (loaded [("1234", "Alice")] [])))
    = [(Code, "1234:Alice"); (Tag, "")]
  /\ stores (trace (run_op (RemoveCode "x") (loaded [("1234", "Alice")] []))) = [].
Proof.
  split.
  - destruct (mutation_persists_both_classes ClearTags
                (loaded [("1234", "Alice")] [])) as (H & _).
    exact (proj1 (H eq_refl)).
  - destruct (mutation_persists_both_classes (RemoveCode "x")
                (loaded [("1234", "Alice")] [])) as (_ & H & _).
    apply H. vm_compute. reflexivity.
Defined.

(** C8, counterexample. The first call on the codes class runs the guarded
    load, which fills the tags map from the persisted tags string. *)
Lemma first_code_call_loads_tags :
  authorized_tags (boot "" "77:Bob") = []
  /\ authorized_tags (state (run_op (AddCode "1234" "Alice") (boot "" "77:Bob")))
     = [("77", "Bob")]
  /\ authorized_tags (state (run_op (AddCode "1234" "Alice") (boot "" "77:Bob")))
     <> authorized_tags (boot "" "77:Bob").
Proof.
  vm_compute. repeat split. discriminate.
Qed.

(** C8, as the code has it. A call on one class leaves the map of the other
    class as it was when the body of the call started, that is after the
    guarded load for every call but clear. So the other map is unchanged by
    the call whenever the registry is already initialised, and by clear
    always. *)
Theorem cross_class_frame (o : op) (st : registry) :
  (op_class o = Code ->
     authorized_tags (state (run_op o st)) = authorized_tags (entry_state o st))
  /\ (op_class o = Tag ->
     authorized_codes (state (run_op o st)) = authorized_codes (entry_state o st))
  /\ (initialized st = true \/ is_clear o = true ->
     entry_state o st = st
     /\ (op_class o = Code ->
           authorized_tags (state (run_op o st)) = authorized_tags st)
     /\ (op_class o = Tag ->
           authorized_codes (state (run_op o st)) = authorized_codes st)).
Proof.
  assert (Ht : op_class o = Code ->
               authorized_tags (state (run_op o st)) = authorized_tags (entry_state o st)).
  { intros Hc. rewrite run_op_tags. destruct o; try reflexivity; discriminate. }
  assert (Hc : op_class o = Tag ->
               authorized_codes (state (run_op o st)) = authorized_codes (entry_state o st)).
  { intros Hc. rewrite run_op_codes. destruct o; try reflexivity; discriminate. }
  split; [exact Ht|]. split; [exact Hc|].
  intros Hi.
  assert (E : entry_state o st = st).
  { unfold entry_state. destruct (is_clear o); [reflexivity|].
    destruct Hi as [Hi|Hi]; [|discriminate].
    now rewrite init_done. }
  split; [exact E|]. split; intros Hcl.
  - rewrite (Ht Hcl). now rewrite E.
  - rewrite (Hc Hcl). now rewrite E.
Qed.

Lemma cross_class_frame_witness :
  authorized_tags
    (state (run_op (AddCode "1234" "Alice") (loaded [] [("77", "Bob")])))
  = [("77", "Bob")]
  /\ authorized_codes (state (run_op ClearTags (boot "1234:Alice" "77:Bob"))) = [].
Proof.
  split.
  - destruct (cross_class_frame (AddCode "1234" "Alice") (loaded [] [("77", "Bob")]))
      as (_ & _ & H).
    destruct (H (or_introl eq_refl)) as (_ & Ht & _).
    exact (Ht eq_refl).
  - destruct (cross_class_frame ClearTags (boot "1234:Alice" "77:Bob"))
      as (_ & _ & H).
    destruct (H (or_intror eq_refl)) as (_ & _ & Hc).
    exact (Hc eq_refl).
Defined.

(** * Further properties of the codec *)

Section CodecComposition.

Lemma parse_concat_bounded (n : nat) :
  forall (s1 s2 : string) (m : StdMap.t),
    String.length s1 <= n ->
    parse_stored_credentials (s1 ++ "," ++ s2) m =
    parse_stored_credentials s2 (parse_stored_credentials s1 m).
Proof.
  induction n as [|n IH]; intros s1 s2 m Hlen.
  - destruct s1; [|simpl in Hlen; lia].
    rewrite (parse_cons_entry "" s2 m eq_refl).
    now rewrite (parse_last_entry "" m eq_refl).
  - destruct (find "," s1) as [pos|] eqn:F.
    + destruct (find_split _ _ _ F) as (Hs & Hfree & Hp).
      pose proof (find_lt _ _ _ F) as Hlt.
      set (e := substr s1 0 pos) in *. set (r := drop (pos + 1) s1) in *.
      assert (Hr : String.length r <= n).
      { unfold r. rewrite length_drop. lia. }
      rewrite Hs.
      change (e ++ String "," r) with (e ++ "," ++ r).
      rewrite append_assoc.
      change (("," ++ r) ++ "," ++ s2) with ("," ++ (r ++ "," ++ s2)).
      rewrite (parse_cons_entry e (r ++ "," ++ s2) m Hfree).
      rewrite (parse_cons_entry e r m Hfree).
      now apply IH.
    + rewrite (parse_cons_entry s1 s2 m F).
      now rewrite (parse_last_entry s1 m F).
Qed.

End CodecComposition.

(** X1. Decoding is sequential over commas: decoding [s1,s2] into a map is
    decoding [s1] into it and then [s2] into the result, for arbitrary
    texts [s1] and [s2] (malformed entries included). *)
Theorem decode_concat (s1 s2 : string) (m : StdMap.t) :
  parse_stored_credentials (s1 ++ "," ++ s2) m =
  parse_stored_credentials s2 (parse_stored_credentials s1 m).
Proof. apply (parse_concat_bounded (String.length s1)). lia. Qed.

(** X2. When an id occurs more than once in the persisted text, the last
    occurrence wins: whatever text precedes a final entry [k:v], the decoded
    map gives [k] the name [v]. *)
Theorem decode_last_wins (s k v : string) (m : StdMap.t) :
  free_of "," k -> free_of ":" k -> free_of "," v ->
  StdMap.find k (parse_stored_credentials (s ++ "," ++ k ++ ":" ++ v) m) = Some v.
Proof.
  intros Hk Hc Hv.
  rewrite (parse_concat_bounded (String.length s)) by lia.
  rewrite parse_last_entry by now apply free_of_entry.
  rewrite store_entry_split by exact Hc. apply find_set_same.
Qed.

Lemma decode_last_wins_witness :
  StdMap.find "1234"
    (parse_stored_credentials ("1234:Alice,bad,5678:Bob" ++ "," ++ "1234" ++ ":" ++ "Eve") [])
  = Some "Eve".
Proof.
  apply decode_last_wins; reflexivity.
Defined.

(** X3. The encoding is injective on maps that the format can carry: two
    key-ordered maps with well-formed entries that encode to the same text
    are the same map. *)
Theorem encode_injective (m1 m2 : StdMap.t) :
  StdMap.ordered m1 -> StdMap.ordered m2 ->
  Forall well_formed_entry m1 -> Forall well_formed_entry m2 ->
  credentials_to_string m1 = credentials_to_string m2 -> m1 = m2.
Proof.
  intros O1 O2 W1 W2 E.
  assert (R : forall m, StdMap.ordered m -> Forall well_formed_entry m ->
              parse_stored_credentials (credentials_to_string m) [] = m).
  { intros m O W. rewrite parse_encoded by exact W. now rewrite fold_set_ordered. }
  rewrite <- (R m1 O1 W1), <- (R m2 O2 W2). now rewrite E.
Qed.

Lemma encode_injective_witness :
  [("1234", "Alice"); ("5678", "Bob")] = [("1234", "Alice"); ("5678", "Bob")].
Proof.
  apply encode_injective; try (repeat constructor); reflexivity.
Defined.

(** X4. There is no escaping: a name that contains a comma is written as it
    is, and the text after the comma is decoded as an entry of its own. The
    encoding of the single entry [k -> v1,k2:v2] decodes to the two entries
    [k -> v1] and [k2 -> v2]. *)
Theorem comma_in_name_splits_entry (k v1 k2 v2 : string) :
  free_of "," k -> free_of ":" k -> free_of "," v1 ->
  free_of "," k2 -> free_of ":" k2 -> free_of "," v2 ->
  parse_stored_credentials
    (credentials_to_string [(k, v1 ++ "," ++ k2 ++ ":" ++ v2)]) []
  = StdMap.set k2 v2 [(k, v1)].
Proof.
  intros Hk Hkc Hv1 Hk2 Hk2c Hv2.
  rewrite credentials_to_string_cons.
  rewrite <- append_assoc.
  change ((k ++ ":") ++ v1 ++ "," ++ k2 ++ ":" ++ v2)
    with ((k ++ ":") ++ v1 ++ "," ++ (k2 ++ ":" ++ v2)).
  rewrite <- append_assoc.
  rewrite (parse_concat_bounded (String.length ((k ++ ":") ++ v1))) by lia.
  rewrite append_assoc.
  rewrite !parse_last_entry by now apply free_of_entry.
  now rewrite !store_entry_split.
Qed.

Lemma comma_in_name_splits_entry_witness :
  parse_stored_credentials
    (credentials_to_string [("1234", "Alice" ++ "," ++ "0000" ++ ":" ++ "Eve")]) []
  = [("0000", "Eve"); ("1234", "Alice")].
Proof.
  apply (comma_in_name_splits_entry "1234" "Alice" "0000" "Eve"); reflexivity.
Defined.

(** * Further properties of the registry *)

Section MoreRegistryFacts.

Ltac after_init st :=
  unfold bind; cbv zeta;
  generalize (init_default_auth st); intros [[] st1 tr1]; simpl.

Lemma log_each_trace (c : cred_class) (m : StdMap.t) (st : registry) :
  trace (log_each c m st) = map (fun kv => EvLogI (MsgEntry c (fst kv) (snd kv))) m.
Proof.
  induction m as [|kv rest IH]; simpl; [reflexivity | now rewrite IH].
Qed.

Lemma check_authorized_code_eq (code : string) (st : registry) :
  check_authorized_code code st =
  let r0 := init_default_auth st in
  match StdMap.find code (authorized_codes (state r0)) with
  | Some name =>
      mkOutcome true (state r0) (trace r0 ++ [EvLogI (MsgAuthorized Code name)])
  | None =>
      mkOutcome false (state r0) (trace r0 ++ [EvLogW (MsgUnauthorized Code code)])
  end.
Proof.
  unfold check_authorized_code. after_init st.
  destruct (StdMap.find code (authorized_codes st1)); reflexivity.
Qed.

Lemma check_authorized_tag_eq (tag : string) (st : registry) :
  check_authorized_tag tag st =
  let r0 := init_default_auth st in
  match StdMap.find tag (authorized_tags (state r0)) with
  | Some name =>
      mkOutcome true (state r0) (trace r0 ++ [EvLogI (MsgAuthorized Tag name)])
  | None =>
      mkOutcome false (state r0) (trace r0 ++ [EvLogW (MsgUnauthorized Tag tag)])
  end.
Proof.
  unfold check_authorized_tag. after_init st.
  destruct (StdMap.find tag (authorized_tags st1)); reflexivity.
Qed.

Lemma get_code_user_name_eq (code : string) (st : registry) :
  get_code_user_name code st =
  let r0 := init_default_auth st in
  mkOutcome
    (match StdMap.find code (authorized_codes (state r0)) with
     | Some name => name
     | None => "Unknown"
     end)
    (state r0) (trace r0 ++ []).
Proof.
  unfold get_code_user_name. after_init st.
  destruct (StdMap.find code (authorized_codes st1)); reflexivity.
Qed.

Lemma get_tag_user_name_eq (tag : string) (st : registry) :
  get_tag_user_name tag st =
  let r0 := init_default_auth st in
  mkOutcome
    (match StdMap.find tag (authorized_tags (state r0)) with
     | Some name => name
     | None => "Unknown"
     end)
    (state r0) (trace r0 ++ []).
Proof.
  unfold get_tag_user_name. after_init st.
  destruct (StdMap.find tag (authorized_tags st1)); reflexivity.
Qed.

Lemma list_authorized_codes_eq (st : registry) :
  list_authorized_codes st =
  let r0 := init_default_auth st in
  mkOutcome tt (state r0) (trace r0 ++ listing Code (authorized_codes (state r0))).
Proof.
  unfold list_authorized_codes, listing. after_init st.
  now rewrite log_each_state, log_each_trace.
Qed.

Lemma list_authorized_tags_eq (st : registry) :
  list_authorized_tags st =
  let r0 := init_default_auth st in
  mkOutcome tt (state r0) (trace r0 ++ listing Tag (authorized_tags (state r0))).
Proof.
  unfold list_authorized_tags, listing. after_init st.
  now rewrite log_each_state, log_each_trace.
Qed.

(** The size of the map after [m[k] = v]. *)
Lemma size_set (k v : string) (m : StdMap.t) :
  StdMap.ordered m ->
  StdMap.size (StdMap.set k v m) =
  match StdMap.find k m with
  | Some _ => StdMap.size m
  | None => S (StdMap.size m)
  end.
Proof.
  unfold StdMap.ordered, StdMap.size.
  induction m as [|[k' v'] rest IH]; simpl; intros H; [reflexivity|].
  apply StronglySorted_inv in H as [Hs Hf].
  rewrite compare_eqb. destruct (String.compare k k') eqn:E; simpl.
  - reflexivity.
  - rewrite find_above; [reflexivity|].
    eapply Forall_impl; [|exact Hf]. simpl. intros kv Hkv.
    eapply key_lt_trans; [exact E | exact Hkv].
  - rewrite IH by exact Hs. destruct (StdMap.find k rest); reflexivity.
Qed.

Lemma roundtrip (m : StdMap.t) :
  StdMap.ordered m -> Forall well_formed_entry m ->
  parse_stored_credentials (credentials_to_string m) [] = m.
Proof.
  intros O W. rewrite parse_encoded by exact W. now rewrite fold_set_ordered.
Qed.

Lemma entry_state_initialized (o : op) (st : registry) :
  initialized st = true -> entry_state o st = st.
Proof.
  intros Hi. unfold entry_state. destruct (is_clear o); [reflexivity|].
  now rewrite init_done.
Qed.

Lemma query_quiet (o : op) (st : registry) :
  is_query o = true -> persists o (state (init_default_auth st)) = false.
Proof. destruct o; try discriminate; reflexivity. Qed.

Lemma in_sync_step (o : op) (st : registry) :
  initialized st = true /\ in_sync st ->
  initialized (state (run_op o st)) = true /\ in_sync (state (run_op o st)).
Proof.
  intros (Hi & Hsync). split.
  - rewrite run_op_initialized. now rewrite entry_state_initialized.
  - destruct (persists o (entry_state o st)) eqn:P.
    + destruct (run_op_saves o st P) as (_ & Hc & Ht). split; assumption.
    + destruct (run_op_quiet o st P) as (E & _).
      rewrite E. now rewrite entry_state_initialized.
Qed.

Lemma Forall_set (P : string * string -> Prop) (k v : string) (m : StdMap.t) :
  P (k, v) -> Forall P m -> Forall P (StdMap.set k v m).
Proof.
  intros Hkv. induction m as [|[k' v'] rest IH]; simpl; intros H.
  - constructor; [exact Hkv | constructor].
  - inversion H; subst. destruct (String.compare k k'); constructor; auto.
Qed.

Lemma reload_maps (st : registry) :
  registry_ok st -> in_sync st ->
  Forall well_formed_entry (authorized_codes st) ->
  Forall well_formed_entry (authorized_tags st) ->
  state (init_default_auth (reboot st))
  = mkRegistry (authorized_codes st) (authorized_tags st) true
      (stored_codes st) (stored_tags st).
Proof.
  intros (Oc & Ot) (Sc & St) Wc Wt.
  rewrite init_state. unfold reboot, boot.
  cbn [initialized authorized_codes authorized_tags stored_codes stored_tags].
  rewrite Sc at 1. rewrite St at 1. now rewrite !roundtrip.
Qed.

End MoreRegistryFacts.

(** X5. The guarded load is idempotent and never persists: a second call
    right after the first does nothing at all, and a call writes neither
    persisted string, leaves both as they were and leaves the flag set. *)
Theorem lazy_init_idempotent (st : registry) :
  init_default_auth (state (init_default_auth st))
    = mkOutcome tt (state (init_default_auth st)) []
  /\ stores (trace (init_default_auth st)) = []
  /\ stored_codes (state (init_default_auth st)) = stored_codes st
  /\ stored_tags (state (init_default_auth st)) = stored_tags st
  /\ initialized (state (init_default_auth st)) = true.
Proof.
  split; [apply init_done, init_initialized|].
  split; [apply init_stores|].
  rewrite init_state. destruct (initialized st) eqn:E; simpl; auto.
Qed.

(** X6. Over any run of calls, from any state, each persisted string is
    read at most once: never when the flag is already set or when the run
    consists of clear calls only, and exactly once otherwise. *)
Theorem load_at_most_once (c : cred_class) (os : list op) (st : registry) :
  loads c (trace (run_ops os st))
  = if initialized st || forallb is_clear os then 0 else 1.
Proof.
  revert st. induction os as [|o os IH]; intros st.
  - simpl. now rewrite orb_true_r.
  - destruct (run_ops_cons o os st) as (_ & Et). rewrite Et, loads_app.
    rewrite run_op_loads, IH, run_op_initialized. unfold entry_state.
    simpl forallb.
    destruct (is_clear o); [|rewrite init_initialized];
      destruct (initialized st); simpl; auto.
Qed.

(** X7. Lookups and listings are read-only: a run made of them writes
    nothing to the persisted strings and leaves the registry as the guarded
    load leaves it; on a registry that is already initialised the state does
    not change at all. *)
Theorem queries_read_only (os : list op) (st : registry) :
  forallb is_query os = true ->
  stores (trace (run_ops os st)) = []
  /\ state (run_ops os st)
     = match os with [] => st | _ :: _ => state (init_default_auth st) end
  /\ (initialized st = true -> state (run_ops os st) = st).
Proof.
  revert st. induction os as [|o os IH]; intros st Hq; [repeat split|].
  simpl in Hq. apply andb_true_iff in Hq as (Ho & Hos).
  destruct (run_ops_cons o os st) as (Es & Et). rewrite Es, Et, stores_app.
  destruct (lookup_outcome o st (query_quiet o st Ho)) as (E1 & E2 & _).
  destruct (IH (state (run_op o st)) Hos) as (I1 & I2 & I3).
  rewrite E2, I1.
  assert (E : state (run_ops os (state (run_op o st))) = state (init_default_auth st)).
  { rewrite I3; [exact E1|]. rewrite E1. apply init_initialized. }
  split; [reflexivity|]. split; [exact E|].
  intros Hi. rewrite E. now rewrite init_done.
Qed.

Lemma queries_read_only_witness :
  stores (trace (run_ops [CheckCode "1234"; CodeUserName "9999"; ListTags]
                   (boot "1234:Alice,5678:Bob" ""))) = [].
Proof.
  apply queries_read_only. reflexivity.
Defined.

(** X8. Insert then look up. After an add below capacity, the id is
    authorised and its user name is the name just given; the answers for
    every other id are what they were before the add. *)
Theorem add_then_lookup (st : registry) (id name : string) :
  (StdMap.size (authorized_codes (state (init_default_auth st))) < MAX_CODES ->
     value (check_authorized_code id (state (add_authorized_code id name st))) = true
     /\ value (get_code_user_name id (state (add_authorized_code id name st))) = name
     /\ forall id', id' <> id ->
          value (check_authorized_code id' (state (add_authorized_code id name st)))
            = value (check_authorized_code id' st)
          /\ value (get_code_user_name id' (state (add_authorized_code id name st)))
            = value (get_code_user_name id' st))
  /\ (StdMap.size (authorized_tags (state (init_default_auth st))) < MAX_TAGS ->
     value (check_authorized_tag id (state (add_authorized_tag id name st))) = true
     /\ value (get_tag_user_name id (state (add_authorized_tag id name st))) = name
     /\ forall id', id' <> id ->
          value (check_authorized_tag id' (state (add_authorized_tag id name st)))
            = value (check_authorized_tag id' st)
          /\ value (get_tag_user_name id' (state (add_authorized_tag id name st)))
            = value (get_tag_user_name id' st)).
Proof.
  pose proof (init_initialized st) as Hi.
  split; intros H; apply Nat.leb_gt in H.
  - assert (E : init_default_auth (state (add_authorized_code id name st))
                = mkOutcome tt (state (add_authorized_code id name st)) []).
    { apply init_done. rewrite add_authorized_code_eq. cbv zeta.
      rewrite H. exact Hi. }
    assert (C : authorized_codes (state (add_authorized_code id name st))
                = StdMap.set id name (authorized_codes (state (init_default_auth st)))).
    { rewrite add_authorized_code_eq. cbv zeta. now rewrite H. }
    revert E C. generalize (state (add_authorized_code id name st)).
    intros st' E C.
    rewrite !check_authorized_code_eq, !get_code_user_name_eq. cbv zeta.
    rewrite E. cbn [value state trace]. rewrite C, find_set_same. repeat split.
    + rewrite !check_authorized_code_eq. cbv zeta. rewrite E. cbn [value state trace].
      rewrite C, find_set_other by assumption.
      destruct (StdMap.find id' _); reflexivity.
    + rewrite !get_code_user_name_eq. cbv zeta. rewrite E. cbn [value state trace].
      now rewrite C, find_set_other by assumption.
  - assert (E : init_default_auth (state (add_authorized_tag id name st))
                = mkOutcome tt (state (add_authorized_tag id name st)) []).
    { apply init_done. rewrite add_authorized_tag_eq. cbv zeta.
      rewrite H. exact Hi. }
    assert (C : authorized_tags (state (add_authorized_tag id name st))
                = StdMap.set id name (authorized_tags (state (init_default_auth st)))).
    { rewrite add_authorized_tag_eq. cbv zeta. now rewrite H. }
    revert E C. generalize (state (add_authorized_tag id name st)).
    intros st' E C.
    rewrite !check_authorized_tag_eq, !get_tag_user_name_eq. cbv zeta.
    rewrite E. cbn [value state trace]. rewrite C, find_set_same. repeat split.
    + rewrite !check_authorized_tag_eq. cbv zeta. rewrite E. cbn [value state trace].
      rewrite C, find_set_other by assumption.
      destruct (StdMap.find id' _); reflexivity.
    + rewrite !get_tag_user_name_eq. cbv zeta. rewrite E. cbn [value state trace].
      now rewrite C, find_set_other by assumption.
Qed.

Lemma add_then_lookup_witness :
  value (get_code_user_name "9999"
           (state (add_authorized_code "9999" "Carol" (boot "1234:Alice,5678:Bob" ""))))
  = "Carol".
Proof.
  destruct (add_then_lookup (boot "1234:Alice,5678:Bob" "") "9999" "Carol")
    as (H & _).
  apply H. vm_compute. repeat constructor.
Defined.

(** X9. Remove then look up. After a remove, whether or not the id was
    present, the id is not authorised and its user name is ["Unknown"]; the
    answers for every other id are what they were before the remove. *)
Theorem remove_then_lookup (st : registry) (id : string) :
  registry_ok st ->
  (value (check_authorized_code id (state (remove_authorized_code id st))) = false
   /\ value (get_code_user_name id (state (remove_authorized_code id st))) = "Unknown"
   /\ forall id', id' <> id ->
        value (check_authorized_code id' (state (remove_authorized_code id st)))
          = value (check_authorized_code id' st)
        /\ value (get_code_user_name id' (state (remove_authorized_code id st)))
          = value (get_code_user_name id' st))
  /\ (value (check_authorized_tag id (state (remove_authorized_tag id st))) = false
   /\ value (get_tag_user_name id (state (remove_authorized_tag id st))) = "Unknown"
   /\ forall id', id' <> id ->
        value (check_authorized_tag id' (state (remove_authorized_tag id st)))
          = value (check_authorized_tag id' st)
        /\ value (get_tag_user_name id' (state (remove_authorized_tag id st)))
          = value (get_tag_user_name id' st)).
Proof.
  intros Hok. apply init_ok in Hok. destruct Hok as (Hoc & Hot).
  pose proof (init_initialized st) as Hi.
  split.
  - assert (F : initialized (state (remove_authorized_code id st)) = true
                /\ StdMap.find id (authorized_codes (state (remove_authorized_code id st))) = None
                /\ forall id', id' <> id ->
                     StdMap.find id' (authorized_codes (state (remove_authorized_code id st)))
                     = StdMap.find id' (authorized_codes (state (init_default_auth st)))).
    { rewrite remove_authorized_code_eq. cbv zeta.
      destruct (StdMap.find id (authorized_codes _)) eqn:E; cbn [state authorized_codes initialized].
      - split; [exact Hi|]. split; [now apply find_erase_same|].
        intros id' Hne. now apply find_erase_other.
      - split; [exact Hi|]. split; [exact E | reflexivity]. }
    revert F. generalize (state (remove_authorized_code id st)).
    intros st' (I & F & G). apply init_done in I.
    rewrite check_authorized_code_eq, get_code_user_name_eq. cbv zeta.
    rewrite I. cbn [value state trace]. rewrite F. repeat split.
    + rewrite !check_authorized_code_eq. cbv zeta. rewrite I.
      cbn [value state trace]. rewrite G by assumption.
      destruct (StdMap.find id' _); reflexivity.
    + rewrite !get_code_user_name_eq. cbv zeta. rewrite I.
      cbn [value state trace]. now rewrite G by assumption.
  - assert (F : initialized (state (remove_authorized_tag id st)) = true
                /\ StdMap.find id (authorized_tags (state (remove_authorized_tag id st))) = None
                /\ forall id', id' <> id ->
                     StdMap.find id' (authorized_tags (state (remove_authorized_tag id st)))
                     = StdMap.find id' (authorized_tags (state (init_default_auth st)))).
    { rewrite remove_authorized_tag_eq. cbv zeta.
      destruct (StdMap.find id (authorized_tags _)) eqn:E; cbn [state authorized_tags initialized].
      - split; [exact Hi|]. split; [now apply find_erase_same|].
        intros id' Hne. now apply find_erase_other.
      - split; [exact Hi|]. split; [exact E | reflexivity]. }
    revert F. generalize (state (remove_authorized_tag id st)).
    intros st' (I & F & G). apply init_done in I.
    rewrite check_authorized_tag_eq, get_tag_user_name_eq. cbv zeta.
    rewrite I. cbn [value state trace]. rewrite F. repeat split.
    + rewrite !check_authorized_tag_eq. cbv zeta. rewrite I.
      cbn [value state trace]. rewrite G by assumption.
      destruct (StdMap.find id' _); reflexivity.
    + rewrite !get_tag_user_name_eq. cbv zeta. rewrite I.
      cbn [value state trace]. now rewrite G by assumption.
Qed.

Lemma remove_then_lookup_witness :
  value (check_authorized_code "1234"
           (state (remove_authorized_code "1234" (boot "1234:Alice,5678:Bob" ""))))
  = false.
Proof.
  destruct (remove_then_lookup (boot "1234:Alice,5678:Bob" "") "1234" (boot_ok _ _))
    as ((H & _) & _).
  exact H.
Defined.

(** X10. Clear then look up. After a clear of a class, from any state, no id
    of that class is authorised and every user name of that class is
    ["Unknown"]. *)
Theorem clear_then_lookup (st : registry) (id : string) :
  value (check_authorized_code id (state (clear_all_codes st))) = false
  /\ value (get_code_user_name id (state (clear_all_codes st))) = "Unknown"
  /\ value (check_authorized_tag id (state (clear_all_tags st))) = false
  /\ value (get_tag_user_name id (state (clear_all_tags st))) = "Unknown".
Proof.
  rewrite check_authorized_code_eq, get_code_user_name_eq,
    check_authorized_tag_eq, get_tag_user_name_eq. cbv zeta.
  rewrite !init_state, clear_all_codes_eq, clear_all_tags_eq.
  cbn [state initialized authorized_codes authorized_tags stored_codes stored_tags].
  destruct (initialized st); repeat split.
Qed.

(** X11. A clear that runs before the guarded load erases the other class
    too: after [clear_all_codes] as the first call since program start, the
    persisted tags string is empty and no tag is authorised any more,
    whatever the persisted strings held; likewise for [clear_all_tags] and
    the codes. *)
Theorem clear_before_load_erases_other_class (codes_data tags_data id : string) :
  stored_tags (state (clear_all_codes (boot codes_data tags_data))) = ""
  /\ value (check_authorized_tag id
              (state (clear_all_codes (boot codes_data tags_data)))) = false
  /\ stored_codes (state (clear_all_tags (boot codes_data tags_data))) = ""
  /\ value (check_authorized_code id
              (state (clear_all_tags (boot codes_data tags_data)))) = false.
Proof.
  rewrite check_authorized_code_eq, check_authorized_tag_eq. cbv zeta.
  rewrite !init_state, clear_all_codes_eq, clear_all_tags_eq.
  repeat split.
Qed.

(** X12. Once the persisted strings are the encodings of the two maps of an
    initialised registry, they stay so after every run of calls: memory and
    persistent storage do not drift apart. *)
Theorem sync_preserved (os : list op) (st : registry) :
  initialized st = true -> in_sync st ->
  initialized (state (run_ops os st)) = true /\ in_sync (state (run_ops os st)).
Proof.
  intros Hi Hs.
  apply (run_ops_invariant (fun s => initialized s = true /\ in_sync s)).
  - intros o s. apply in_sync_step.
  - split; assumption.
Qed.

Lemma sync_preserved_witness :
  in_sync (state (run_ops [AddCode "9999" "Carol"; CheckTag "77"; RemoveCode "1234"]
                    (loaded [("1234", "Alice")] []))).
Proof.
  apply sync_preserved; [reflexivity | split; reflexivity].
Defined.

(** X13. Restart round trip. When the persisted strings are the encodings
    of the two maps and every entry is well formed, the guarded load of the
    next program start rebuilds exactly the same two maps. *)
Theorem reload_round_trip (st : registry) :
  registry_ok st -> in_sync st ->
  Forall well_formed_entry (authorized_codes st) ->
  Forall well_formed_entry (authorized_tags st) ->
  authorized_codes (state (init_default_auth (reboot st))) = authorized_codes st
  /\ authorized_tags (state (init_default_auth (reboot st))) = authorized_tags st.
Proof.
  intros Hok Hs Wc Wt. rewrite reload_maps by assumption. split; reflexivity.
Qed.

Lemma reload_round_trip_witness :
  authorized_codes
    (state (init_default_auth
              (reboot (loaded [("1234", "Alice:admin"); ("5678", "Bob")] [("77", "Eve")]))))
  = [("1234", "Alice:admin"); ("5678", "Bob")].
Proof.
  apply (reload_round_trip (loaded [("1234", "Alice:admin"); ("5678", "Bob")] [("77", "Eve")])).
  - split; repeat constructor.
  - split; reflexivity.
  - repeat constructor.
  - repeat constructor.
Defined.

(** X14. Below capacity, adding an id that is already a key overwrites its
    name in place and the number of entries stays the same; adding a new id
    adds exactly one entry. *)
Theorem add_size (st : registry) (id name : string) :
  registry_ok st ->
  (StdMap.size (authorized_codes (state (init_default_auth st))) < MAX_CODES ->
     StdMap.size (authorized_codes (state (add_authorized_code id name st)))
     = match StdMap.find id (authorized_codes (state (init_default_auth st))) with
       | Some _ => StdMap.size (authorized_codes (state (init_default_auth st)))
       | None => S (StdMap.size (authorized_codes (state (init_default_auth st))))
       end)
  /\ (StdMap.size (authorized_tags (state (init_default_auth st))) < MAX_TAGS ->
     StdMap.size (authorized_tags (state (add_authorized_tag id name st)))
     = match StdMap.find id (authorized_tags (state (init_default_auth st))) with
       | Some _ => StdMap.size (authorized_tags (state (init_default_auth st)))
       | None => S (StdMap.size (authorized_tags (state (init_default_auth st))))
       end).
Proof.
  intros Hok. apply init_ok in Hok. destruct Hok as (Hoc & Hot).
  rewrite add_authorized_code_eq, add_authorized_tag_eq. cbv zeta.
  split; intros H; apply Nat.leb_gt in H; rewrite H;
    cbn [state authorized_codes authorized_tags]; now apply size_set.
Qed.

Lemma add_size_witness :
  StdMap.size
    (authorized_codes
       (state (add_authorized_code "1234" "Carol" (boot "1234:Alice,5678:Bob" ""))))
  = 2.
Proof.
  destruct (add_size (boot "1234:Alice,5678:Bob" "") "1234" "Carol" (boot_ok _ _))
    as (H & _).
  rewrite H; [reflexivity|]. vm_compute. repeat constructor.
Defined.

(** X15. A listing of an initialised registry logs the header, then one
    line per entry of the map in key order, then the number of entries, and
    changes nothing. On a registry that is not initialised yet the same
    lines follow those of the guarded load. *)
Theorem listing_trace (st : registry) :
  trace (list_authorized_codes st)
    = (trace (init_default_auth st)
       ++ listing Code (authorized_codes (state (init_default_auth st))))%list
  /\ trace (list_authorized_tags st)
    = (trace (init_default_auth st)
       ++ listing Tag (authorized_tags (state (init_default_auth st))))%list
  /\ (initialized st = true ->
      list_authorized_codes st = mkOutcome tt st (listing Code (authorized_codes st))
      /\ list_authorized_tags st = mkOutcome tt st (listing Tag (authorized_tags st))).
Proof.
  rewrite list_authorized_codes_eq, list_authorized_tags_eq. cbv zeta.
  split; [reflexivity|]. split; [reflexivity|].
  intros Hi. rewrite (init_done st Hi). split; reflexivity.
Qed.

Lemma listing_trace_witness :
  list_authorized_codes (loaded [("1234", "Alice"); ("5678", "Bob")] [])
  = mkOutcome tt (loaded [("1234", "Alice"); ("5678", "Bob")] [])
      [EvLogI (MsgListHeader Code);
       EvLogI (MsgEntry Code "1234" "Alice");
       EvLogI (MsgEntry Code "5678" "Bob");
       EvLogI (MsgTotal Code 2)].
Proof.
  destruct (listing_trace (loaded [("1234", "Alice"); ("5678", "Bob")] []))
    as (_ & _ & H).
  exact (proj1 (H eq_refl)).
Defined.

(** X16. A credential added below capacity survives a restart: when the
    entries of both maps and the new entry are well formed, the guarded load
    of the next program start authorises the id and gives it the name that
    was added. *)
Theorem added_credential_survives_restart (st : registry) (id name : string) :
  registry_ok st ->
  Forall well_formed_entry (authorized_codes (state (init_default_auth st))) ->
  Forall well_formed_entry (authorized_tags (state (init_default_auth st))) ->
  well_formed_entry (id, name) ->
  (StdMap.size (authorized_codes (state (init_default_auth st))) < MAX_CODES ->
     value (check_authorized_code id (reboot (state (add_authorized_code id name st))))
       = true
     /\ value (get_code_user_name id (reboot (state (add_authorized_code id name st))))
       = name)
  /\ (StdMap.size (authorized_tags (state (init_default_auth st))) < MAX_TAGS ->
     value (check_authorized_tag id (reboot (state (add_authorized_tag id name st))))
       = true
     /\ value (get_tag_user_name id (reboot (state (add_authorized_tag id name st))))
       = name).
Proof.
  intros Hok Wc Wt Wn. apply init_ok in Hok. destruct Hok as (Oc & Ot).
  split; intros H; apply Nat.leb_gt in H.
  - rewrite check_authorized_code_eq, get_code_user_name_eq. cbv zeta.
    rewrite add_authorized_code_eq. cbv zeta. rewrite H. cbn [state].
    rewrite reload_maps.
    + cbn [authorized_codes value]. now rewrite find_set_same.
    + split; [now apply ordered_set | exact Ot].
    + split; reflexivity.
    + now apply Forall_set.
    + exact Wt.
  - rewrite check_authorized_tag_eq, get_tag_user_name_eq. cbv zeta.
    rewrite add_authorized_tag_eq. cbv zeta. rewrite H. cbn [state].
    rewrite reload_maps.
    + cbn [authorized_tags value]. now rewrite find_set_same.
    + split; [exact Oc | now apply ordered_set].
    + split; reflexivity.
    + exact Wc.
    + now apply Forall_set.
Qed.

Lemma added_credential_survives_restart_witness :
  value (get_code_user_name "9999"
           (reboot (state (add_authorized_code "9999" "Carol"
                             (boot "1234:Alice,5678:Bob" "")))))
  = "Carol".
Proof.
  destruct (added_credential_survives_restart
              (boot "1234:Alice,5678:Bob" "") "9999" "Carol" (boot_ok _ _))
    as (H & _).
  - vm_compute. repeat constructor.
  - vm_compute. constructor.
  - repeat constructor.
  - apply H. vm_compute. repeat constructor.
Defined.
